(** * radix pubsub: the push-message codec, the subscription registry and
      the PubSubConn facade of [pubsub.go], embedded and verified.

    Go values are modelled as follows.
    - [string] is Rocq's [string] (a sequence of 8-bit characters), [[]byte]
      is [list byte]; the conversions [string(b)] and [[]byte(s)] are
      [string_of_list_byte] and [list_byte_of_string].
    - [error] is [option goerror]; [None] is Go's [nil].
    - [map[K]V] is a [gmap]; a map variable that may hold Go's [nil] map is an
      [option] of a [gmap].
    - a channel used as a sink is known by its identity only, a [nat]. *)

From Stdlib Require Import Strings.Byte.
From stdpp Require Import gmap strings list fin_maps.

Local Open Scope string_scope.
Local Open Scope list_scope.
Local Open Scope nat_scope.

(** ** Errors *)

(** The error values [pubsub.go] builds itself, and the ones it only passes
    on from its collaborators. [fmt_Errorf] keeps its argument unformatted. *)
Inductive goerror : Type :=
  | errors_New (text : string)
  | fmt_Errorf (format : string) (arg : string)
  | foreign_error (text : string).

Abbreviation error := (option goerror).

Global Instance goerror_eq_dec : EqDecision goerror.
Proof. solve_decision. Defined.

(** ** The push message *)

Record PubSubMessage : Type := mkPubSubMessage {
  Type_ : string;   (* "message" or "pmessage" *)
  Pattern : string; (* set if Type is "pmessage" *)
  Channel : string;
  Message : list byte
}.

Definition set_Type (t : string) (m : PubSubMessage) : PubSubMessage :=
  mkPubSubMessage t (Pattern m) (Channel m) (Message m).
Definition set_Pattern (p : string) (m : PubSubMessage) : PubSubMessage :=
  mkPubSubMessage (Type_ m) p (Channel m) (Message m).
Definition set_Channel (c : string) (m : PubSubMessage) : PubSubMessage :=
  mkPubSubMessage (Type_ m) (Pattern m) c (Message m).
Definition set_Message (b : list byte) (m : PubSubMessage) : PubSubMessage :=
  mkPubSubMessage (Type_ m) (Pattern m) (Channel m) b.

(** ** The RESP layer under the codec *)

(** Modelled from the spec: package [resp2] ([ArrayHeader], [BulkString],
    [BulkStringBytes], [Any]) is not part of the sources at hand. The spec
    describes the wire shape of a push message as a sequence of byte strings
    (an array header followed by that many bulk strings), so a stream is a
    list of such items. *)
Inductive RespItem : Type :=
  | ArrayHeader (N : Z)
  | BulkString (S : string)
  | BulkStringBytes (B : list byte).

(** [io.Writer], as seen through [resp.Marshaler]: writing one item either
    fails or extends the stream. *)
Class Writer (W : Type) := write_item : RespItem → W → error * W.

(** An in-memory buffer: writes never fail. *)
Global Instance buffer_Writer : Writer (list RespItem) :=
  fun it w => (None, w ++ [it]).

(** A writer with room for a bounded number of items, to exercise the
    error path of [MarshalRESP]. *)
Global Instance bounded_Writer : Writer (nat * list RespItem) :=
  fun it w =>
    match w.1 with
    | O => (Some (foreign_error "short write"), w)
    | S n => (None, (n, w.2 ++ [it]))
    end.

Definition bulk_bytes (it : RespItem) : option (list byte) :=
  match it with
  | ArrayHeader _ => None
  | BulkString s => Some (String.list_byte_of_string s)
  | BulkStringBytes b => Some b
  end.

(** Reads [n] bulk strings off the stream. *)
Fixpoint read_bulks (n : nat) (br : list RespItem)
  : option (list (list byte) * list RespItem) :=
  match n with
  | O => Some ([], br)
  | S n' =>
      match br with
      | [] => None
      | it :: br' =>
          match bulk_bytes it with
          | None => None
          | Some b =>
              match read_bulks n' br' with
              | None => None
              | Some (bs, rest) => Some (b :: bs, rest)
              end
          end
      end
  end.

(** Modelled from the spec: [resp2.Any{I: &bb}.UnmarshalRESP(br)] for
    [bb : [][]byte], which "reads a generic sequence of byte strings". *)
Definition Any_UnmarshalRESP (br : list RespItem)
  : goerror + (list (list byte) * list RespItem) :=
  match br with
  | ArrayHeader n :: br' =>
      match read_bulks (Z.to_nat n) br' with
      | Some r => inr r
      | None => inl (foreign_error "resp2: malformed array")
      end
  | _ => inl (foreign_error "resp2: not an array")
  end.

(** ** [bytes.ToLower] *)

Section Codec.

(** The path [bytes.ToLower] takes for input with a byte outside ASCII,
    [Map(unicode.ToLower, s)], lives in Go's Unicode tables. *)
Variable unicode_ToLower : list byte → list byte.

Definition isASCII (c : byte) : bool := (Byte.to_N c <? 128)%N.
Definition isUpper (c : byte) : bool :=
  (65 <=? Byte.to_N c)%N && (Byte.to_N c <=? 90)%N.

(** [c += 'a' - 'A'] for an upper-case ASCII letter. *)
Definition lower_byte (c : byte) : byte :=
  if isUpper c then default c (Byte.of_N (Byte.to_N c + 32)) else c.

Definition ToLower (s : list byte) : list byte :=
  if forallb isASCII s then
    if existsb isUpper s then map lower_byte s else s
  else unicode_ToLower s.

(** ** [PubSubMessage.MarshalRESP] *)

(** The closure [marshal]: it writes only while no write has failed. *)
Definition marshal {W} `{Writer W} (it : RespItem) (st : error * W)
  : error * W :=
  match st.1 with
  | None => write_item it st.2
  | Some _ => st
  end.

Definition MarshalRESP {W} `{Writer W} (m : PubSubMessage) (w : W)
  : error * W :=
  let st := (None, w) in
  let hdr :=
    if decide (Type_ m = "message") then
      inr (marshal (BulkString (Type_ m)) (marshal (ArrayHeader 3) st))
    else if decide (Type_ m = "pmessage") then
      inr (marshal (BulkString (Pattern m))
             (marshal (BulkString (Type_ m)) (marshal (ArrayHeader 4) st)))
    else inl (errors_New "unknown message Type") in
  match hdr with
  | inl e => (Some e, w)
  | inr st =>
      marshal (BulkStringBytes (Message m)) (marshal (BulkString (Channel m)) st)
  end.

(** ** [PubSubMessage.UnmarshalRESP] *)

(** The closure [pop]: [b := bb[0]; bb = bb[1:]]. It is only called where the
    length checks have made [bb] long enough; on an empty slice Go panics,
    which is [None] here. *)
Definition pop (bb : list (list byte)) : option (list byte * list (list byte)) :=
  match bb with
  | [] => None
  | b :: bb' => Some (b, bb')
  end.

(** What is left of [UnmarshalRESP] once [resp2.Any] has filled [bb]. The
    receiver [m] is updated in place: [m.Type] is assigned before the checks
    that follow it, so a failed call leaves it set. [None] stands for a
    panic. *)
Definition unmarshal_elems (m : PubSubMessage) (bb : list (list byte))
  : option (error * PubSubMessage) :=
  if decide (length bb < 3)%nat then
    Some (Some (errors_New "message has too few elements"), m)
  else
    match bb with
    | [] => None
    | b0 :: _ =>
        let m := set_Type (String.string_of_list_byte (ToLower b0)) m in
        let isPat := bool_decide (Type_ m = "pmessage") in
        if isPat && bool_decide (length bb < 4)%nat then
          Some (Some (errors_New "message has too few elements"), m)
        else if negb isPat && bool_decide (Type_ m ≠ "message") then
          Some (Some (fmt_Errorf "not message or pmessage: %q" (Type_ m)), m)
        else
          '(_, bb) ← pop bb;
          '(m, bb) ← (if isPat
                      then '(p, bb) ← pop bb;
                           Some (set_Pattern (String.string_of_list_byte p) m, bb)
                      else Some (m, bb));
          '(c, bb) ← pop bb;
          let m := set_Channel (String.string_of_list_byte c) m in
          '(b, bb) ← pop bb;
          let m := set_Message b m in
          Some (None, m)
    end.

Definition UnmarshalRESP (m : PubSubMessage) (br : list RespItem)
  : option (error * PubSubMessage * list RespItem) :=
  match Any_UnmarshalRESP br with
  | inl e => Some (Some e, m, br)
  | inr (bb, rest) =>
      '(e, m') ← unmarshal_elems m bb;
      Some (e, m', rest)
  end.

End Codec.

Abbreviation str := String.string_of_list_byte.
Abbreviation too_few := (errors_New "message has too few elements").

(** ** [chanSet]: the subscription registry *)

(** A sink is a [chan<- PubSubMessage]; only its identity matters. *)
Abbreviation sink := nat.

(** [map[string]map[chan<- PubSubMessage]bool]; [None] is the [nil] map the
    registries are set to when the connection closes. Reading a [nil] map
    finds nothing, writing to it panics. *)
Abbreviation chanSet := (option (gmap string (gmap nat bool))).

(** [m, ok := cs[s]] *)
Definition cs_lookup (cs : chanSet) (s : string) : option (gmap nat bool) :=
  cs ≫= (.!! s).

(** [chanSet.add]. The inner map [m] is a reference: [m[ch] = true] updates
    the map stored under [s]. [None] is the panic of [cs[s] = m] on a [nil]
    map. *)
Definition add (s : string) (ch : sink) (cs : chanSet) : option chanSet :=
  match cs_lookup cs s with
  | Some m => mp ← cs; Some (Some (<[s := <[ch := true]> m]> mp))
  | None =>
      mp ← cs;
      let m : gmap nat bool := ∅ in
      let mp := <[s := m]> mp in
      Some (Some (<[s := <[ch := true]> m]> mp))
  end.

(** [chanSet.del] *)
Definition del (s : string) (ch : sink) (cs : chanSet) : bool * chanSet :=
  match cs_lookup cs s with
  | None => (true, cs)
  | Some m =>
      let m := delete ch m in
      if decide (size m = 0)%nat
      then (true, delete s <$> cs)
      else (false, <[s := m]> <$> cs)
  end.

(** One iteration of the loop of [chanSet.missing]. [out := ss[:0]] shares
    the backing array of [ss], so [append(out, s)] stores [s] into that array
    at index [len(out)]: the state is the array and the length of [out]. *)
Definition missing_step (cs : chanSet) (st : list string * nat) (i : nat)
  : list string * nat :=
  match st.1 !! i with
  | None => st
  | Some s =>
      match cs_lookup cs s with
      | None => (<[st.2 := s]> st.1, S st.2)
      | Some _ => st
      end
  end.

(** [chanSet.missing]: the slice it returns, and the argument slice [ss] as
    the call leaves it. *)
Definition missing (ss : list string) (cs : chanSet)
  : list string * list string :=
  let st := foldl (missing_step cs) (ss, 0%nat) (seq 0 (length ss)) in
  (take st.2 st.1, st.1).

(** ** The connection *)

Record Cmd : Type := mkCmd { cmd_name : string; cmd_args : list string }.

(** The underlying [Conn] is a collaborator: it is modelled by the calls made
    on it, the commands handed to [Encode] and the number of [Close] calls.
    What it answers comes from the environment of each call. *)
Record Conn : Type := mkConn { encoded : list Cmd; close_calls : nat }.

Record pubSubConn : Type := mkPubSubConn {
  conn : Conn;
  subs : chanSet;
  psubs : chanSet;
  cmdResCh : option (list error); (* buffered values; [None] once nil *)
  close_done : bool;              (* whether [close sync.Once] has run *)
  closeErr : error;
  closeErrCh : option (list error)
}.

Definition set_conn (x : Conn) (c : pubSubConn) : pubSubConn :=
  mkPubSubConn x (subs c) (psubs c) (cmdResCh c) (close_done c) (closeErr c)
    (closeErrCh c).
Definition set_subs (x : chanSet) (c : pubSubConn) : pubSubConn :=
  mkPubSubConn (conn c) x (psubs c) (cmdResCh c) (close_done c) (closeErr c)
    (closeErrCh c).
Definition set_psubs (x : chanSet) (c : pubSubConn) : pubSubConn :=
  mkPubSubConn (conn c) (subs c) x (cmdResCh c) (close_done c) (closeErr c)
    (closeErrCh c).
Definition set_cmdResCh (x : option (list error)) (c : pubSubConn)
  : pubSubConn :=
  mkPubSubConn (conn c) (subs c) (psubs c) x (close_done c) (closeErr c)
    (closeErrCh c).
Definition set_close_done (x : bool) (c : pubSubConn) : pubSubConn :=
  mkPubSubConn (conn c) (subs c) (psubs c) (cmdResCh c) x (closeErr c)
    (closeErrCh c).
Definition set_closeErr (x : error) (c : pubSubConn) : pubSubConn :=
  mkPubSubConn (conn c) (subs c) (psubs c) (cmdResCh c) (close_done c) x
    (closeErrCh c).
Definition set_closeErrCh (x : option (list error)) (c : pubSubConn)
  : pubSubConn :=
  mkPubSubConn (conn c) (subs c) (psubs c) (cmdResCh c) (close_done c)
    (closeErr c) x.

(** [newPubSub]: both registries empty, [cmdResCh] open with capacity 1. *)
Definition newPubSub (closeErrCh : option (list error)) : pubSubConn :=
  mkPubSubConn (mkConn [] 0) (Some ∅) (Some ∅) (Some []) false None closeErrCh.

(** How a call ends: it returns an error value, it waits for ever on
    [cmdResCh], or it panics. *)
Inductive status : Type :=
  | Returns (err : error)
  | Blocks
  | Panics.

(** What a receive on [cmdResCh] yields when the buffer is empty: a value
    the reader loop sends meanwhile, or the channel being closed. *)
Inductive recv : Type :=
  | Got (err : error)
  | ChClosed.

(** The environment of one call of [do]: the answer of [conn.Encode] and
    what arrives on [cmdResCh] while the call waits. *)
Record wire_env : Type := mkWireEnv { encode_err : error; acks : list recv }.

Definition connection_closed : goerror := errors_New "connection closed".

(** [recvCmdRes]; [None] when the receive never completes. *)
Definition recvCmdRes (ev : list recv) (c : pubSubConn)
  : option (error * list recv * pubSubConn) :=
  match cmdResCh c with
  | Some (e :: buf) => Some (e, ev, set_cmdResCh (Some buf) c)
  | Some [] =>
      match ev with
      | Got e :: ev' => Some (e, ev', c)
      | ChClosed :: ev' => Some (Some connection_closed, ev', c)
      | [] => None
      end
  | None => Some (Some connection_closed, ev, c)
  end.

(** The loop [for i := 0; i < exp; i++] of [do]. *)
Fixpoint do_wait (exp : nat) (ev : list recv) (c : pubSubConn)
  : status * pubSubConn :=
  match exp with
  | O => (Returns None, c)
  | S exp' =>
      match recvCmdRes ev c with
      | None => (Blocks, c)
      | Some (Some e, _, c') => (Returns (Some e), c')
      | Some (None, ev', c') => do_wait exp' ev' c'
      end
  end.

Definition Encode (rcmd : Cmd) (cn : Conn) : Conn :=
  mkConn (encoded cn ++ [rcmd]) (close_calls cn).

(** [do] *)
Definition do (env : wire_env) (exp : nat) (cmd : string) (args : list string)
  (c : pubSubConn) : status * pubSubConn :=
  let c := set_conn (Encode (mkCmd cmd args) (conn c)) c in
  match encode_err env with
  | Some e => (Returns (Some e), c)
  | None => do_wait exp (acks env) c
  end.

(** [for _, channel := range channels { cs.add(channel, msgCh) }] *)
Fixpoint add_each (msgCh : sink) (channels : list string) (cs : chanSet)
  : option chanSet :=
  match channels with
  | [] => Some cs
  | channel :: rest => cs' ← add channel msgCh cs; add_each msgCh rest cs'
  end.

(** The loop of [Unsubscribe]: the registry after the removals and
    [emptyChannels], a slice of its own. *)
Fixpoint del_each (msgCh : sink) (channels : list string) (cs : chanSet)
  (emptyChannels : list string) : chanSet * list string :=
  match channels with
  | [] => (cs, emptyChannels)
  | channel :: rest =>
      let '(empty, cs') := del channel msgCh cs in
      del_each msgCh rest cs'
        (if empty then emptyChannels ++ [channel] else emptyChannels)
  end.

(** The body shared by [Subscribe] and [PSubscribe], over the registry
    selected by [get] and [set]. The slice [channels] the second loop ranges
    over is the one [missing] has written to. *)
Definition subscribe_with (get : pubSubConn → chanSet)
  (set : chanSet → pubSubConn → pubSubConn) (cmd : string)
  (env : wire_env) (msgCh : sink) (channels : list string) (c : pubSubConn)
  : status * pubSubConn :=
  let '(missing, channels) := missing channels (get c) in
  let r :=
    if decide (0 < length missing)%nat
    then do env (length missing) cmd missing c
    else (Returns None, c) in
  match r with
  | (Returns None, c) =>
      match add_each msgCh channels (get c) with
      | Some cs => (Returns None, set cs c)
      | None => (Panics, c)
      end
  | _ => r
  end.

(** The body shared by [Unsubscribe] and [PUnsubscribe]. *)
Definition unsubscribe_with (get : pubSubConn → chanSet)
  (set : chanSet → pubSubConn → pubSubConn) (cmd : string)
  (env : wire_env) (msgCh : sink) (channels : list string) (c : pubSubConn)
  : status * pubSubConn :=
  let '(cs, emptyChannels) := del_each msgCh channels (get c) [] in
  let c := set cs c in
  if decide (length emptyChannels = 0)%nat
  then (Returns None, c)
  else do env (length emptyChannels) cmd emptyChannels c.

Definition Subscribe := subscribe_with subs set_subs "SUBSCRIBE".
Definition Unsubscribe := unsubscribe_with subs set_subs "UNSUBSCRIBE".
Definition PSubscribe := subscribe_with psubs set_psubs "PSUBSCRIBE".
Definition PUnsubscribe := unsubscribe_with psubs set_psubs "PUNSUBSCRIBE".

Definition Ping (env : wire_env) (c : pubSubConn) : status * pubSubConn :=
  do env 1 "PING" [] c.

(** [sendCmdResNb]: a send that is dropped when the one-slot buffer is
    full. *)
Definition sendCmdResNb (err : error) (c : pubSubConn) : pubSubConn :=
  match cmdResCh c with
  | Some buf =>
      if decide (length buf < 1)%nat
      then set_cmdResCh (Some (buf ++ [err])) c
      else c
  | None => c
  end.

(** [closeCmdResCh] and [closeCloseErrCh] *)
Definition closeCmdResCh (c : pubSubConn) : pubSubConn := set_cmdResCh None c.
Definition closeCloseErrCh (c : pubSubConn) : pubSubConn :=
  set_closeErrCh None c.

(** [closeInner]; [close_res] is what [conn.Close()] answers. The function
    handed to [close.Do] runs on the first call only. This is the course of
    a call that returns: the send [ch <- cmdResErr] on the observer's channel
    is taken to complete, as it does when the observer is receiving or the
    channel has room. Where it does not, the call waits at that send for
    ever, inside [close.Do] and with [csL] held, and has no result. A
    connection made by [PubSub] has no observer and makes no such send. *)
Definition closeInner (close_res : error) (cmdResErr : error) (c : pubSubConn)
  : error * pubSubConn :=
  let c :=
    if close_done c then c
    else
      let c := set_conn (mkConn (encoded (conn c)) (S (close_calls (conn c)))) c in
      let c := set_closeErr close_res c in
      let c := set_subs None c in
      let c := set_psubs None c in
      let c :=
        match cmdResErr with
        | Some _ =>
            match cmdResCh c with
            | Some _ => sendCmdResNb cmdResErr c
            | None => c
            end
        | None => c
        end in
      let c :=
        match closeErrCh c with
        | Some buf => closeCloseErrCh (set_closeErrCh (Some (buf ++ [cmdResErr])) c)
        | None => c
        end in
      let c := closeCmdResCh c in
      set_close_done true c in
  (closeErr c, c).

Definition Close (close_res : error) (c : pubSubConn) : error * pubSubConn :=
  closeInner close_res None c.

(** [publish]: the sends [ch <- m] it performs, one per sink of the set it
    ranges over. Go visits a map in no fixed order, and so this list is to be
    read as a set. *)
Definition publish (c : pubSubConn) (m : PubSubMessage)
  : list (sink * PubSubMessage) :=
  let subs_ := default ∅ (cs_lookup (subs c) (Channel m)) in
  let subs_ :=
    if decide (Type_ m = "pmessage")
    then default ∅ (cs_lookup (psubs c) (Pattern m))
    else subs_ in
  (λ ch, (ch, m)) <$> (map_to_list subs_).*1.

(** ** Vocabulary of the statements *)

(** [ch] is one of the sinks the registry holds under [key]. *)
Definition registered (cs : chanSet) (key : string) (ch : sink) : Prop :=
  ∃ m, cs_lookup cs key = Some m ∧ is_Some (m !! ch).

Global Instance registered_dec cs key ch : Decision (registered cs key ch).
Proof.
  refine (cast_if (decide (is_Some (cs_lookup cs key ≫= (.!! ch)))));
    unfold registered; destruct (cs_lookup cs key) as [m|]; simpl in *.
  - eauto.
  - by destruct i.
  - intros (? & [= <-] & ?). done.
  - intros (? & [=] & _).
Defined.

(** [key] is a key of the registry. *)
Definition present (cs : chanSet) (key : string) : Prop :=
  is_Some (cs_lookup cs key).

Global Instance present_dec cs key : Decision (present cs key).
Proof. unfold present. apply _. Defined.

(** The keys of [ss] that are not in the registry, in the order of [ss]. *)
Definition absent_keys (cs : chanSet) (ss : list string) : list string :=
  filter (λ s, ¬ present cs s) ss.

(** The registries a [chanSet{}] can become through [add] and [del]. *)
Inductive reachable : chanSet → Prop :=
  | reachable_new : reachable (Some ∅)
  | reachable_add s ch cs cs' :
      reachable cs → add s ch cs = Some cs' → reachable cs'
  | reachable_del s ch cs :
      reachable cs → reachable (del s ch cs).2.

(** Calls on the literal-channel side of the connection. Each holds [csL]
    from start to end, so calls by several sinks happen one after another. *)
Inductive call : Type :=
  | CallSubscribe (msgCh : sink) (channels : list string)
  | CallUnsubscribe (msgCh : sink) (channels : list string).

Definition exec (cl : call) (env : wire_env) (c : pubSubConn)
  : status * pubSubConn :=
  match cl with
  | CallSubscribe msgCh channels => Subscribe env msgCh channels c
  | CallUnsubscribe msgCh channels => Unsubscribe env msgCh channels c
  end.

(** A sequence of calls; it goes on as long as calls return. *)
Fixpoint run (steps : list (call * wire_env)) (c : pubSubConn)
  : status * pubSubConn :=
  match steps with
  | [] => (Returns None, c)
  | (cl, env) :: rest =>
      match exec cl env c with
      | (Returns _, c') => run rest c'
      | r => r
      end
  end.

(** [key] is in the literal registry at the start of every call of the
    sequence: no [Unsubscribe] has taken its last sink away. *)
Fixpoint held (key : string) (steps : list (call * wire_env)) (c : pubSubConn)
  : Prop :=
  match steps with
  | [] => True
  | (cl, env) :: rest =>
      present (subs c) key ∧
      match exec cl env c with
      | (Returns _, c') => held key rest c'
      | _ => True
      end
  end.

(** The commands handed to [conn.Encode] between two states. *)
Definition issued (c c' : pubSubConn) : list Cmd :=
  drop (length (encoded (conn c))) (encoded (conn c')).

(** A wire [SUBSCRIBE] with [key] in its key list. *)
Definition subscribes (key : string) (rcmd : Cmd) : bool :=
  bool_decide (cmd_name rcmd = "SUBSCRIBE" ∧ key ∈ cmd_args rcmd).

Definition subscribe_count (key : string) (l : list Cmd) : nat :=
  length (filter (λ rcmd, subscribes key rcmd = true) l).

(** The connection after [closeInner] has run: both registries and
    [cmdResCh] are nil. *)
Definition closed (c : pubSubConn) : Prop :=
  close_done c = true ∧ subs c = None ∧ psubs c = None ∧ cmdResCh c = None.

(** The invariant of the registry: no key is kept with an empty sink set. *)
Definition sets_nonempty (cs : chanSet) : Prop :=
  ∀ s m, cs_lookup cs s = Some m → m ≠ ∅.

(** ** More of [pubsub.go] *)

(** No sink other than [msgCh] is held under [key]: removing [msgCh] leaves
    the key without sinks. *)
Definition no_other_sink (cs : chanSet) (msgCh : sink) (key : string) : Prop :=
  delete msgCh (default (∅ : gmap nat bool) (cs_lookup cs key)) = ∅.

Global Instance no_other_sink_dec cs msgCh key :
  Decision (no_other_sink cs msgCh key).
Proof. unfold no_other_sink. apply _. Defined.

(** [inv[ch] = append(inv[ch], s)] *)
Definition inverse_step (s : string) (inv : gmap nat (list string)) (ch : sink)
  : gmap nat (list string) :=
  <[ch := default [] (inv !! ch) ++ [s]]> inv.

(** [chanSet.inverse] along one order of visit: the keys of the registry with,
    for each, the sinks of its set, as the two [range] loops meet them. *)
Definition inverse_over (order : list (string * list sink))
  : gmap nat (list string) :=
  foldl (λ inv '(s, chs), foldl (inverse_step s) inv chs) ∅ order.

(** Go visits a map in an order of its choice. [order] is one way the loops
    of [inverse] can go through [cs]: every key once, and under a key every
    sink of its set once. *)
Definition range_order (cs : chanSet) (order : list (string * list sink))
  : Prop :=
  ∃ l, l ≡ₚ map_to_list (default ∅ cs) ∧
       Forall2 (λ (e : string * gmap nat bool) (o : string * list sink),
                  o.1 = e.1 ∧ o.2 ≡ₚ (map_to_list e.2).*1) l order.

(** [inverse] with the maps visited in the order of [map_to_list]. *)
Definition inverse (cs : chanSet) : gmap nat (list string) :=
  inverse_over ((λ e : string * gmap nat bool, (e.1, (map_to_list e.2).*1))
                  <$> map_to_list (default ∅ cs)).

(** [sendCmdRes]: a send on [cmdResCh], whose buffer holds one value. With
    the buffer full the send waits for a receiver, which is [None] here. *)
Definition sendCmdRes (err : error) (c : pubSubConn) : option pubSubConn :=
  match cmdResCh c with
  | Some buf =>
      if decide (length buf < 1)
      then Some (set_cmdResCh (Some (buf ++ [err])) c)
      else None
  | None => Some c
  end.

(** What [c.conn.Decode(&rm)] answers in [spin]: a timeout, another error,
    or a frame. *)
Inductive decoded : Type :=
  | DecodeTimeout
  | DecodeError (e : goerror)
  | DecodeFrame (rm : list RespItem).

(** How one turn of the loop of [spin] ends: the loop goes on, it returns, it
    waits in [sendCmdRes], or it panics. *)
Inductive spin_status : Type :=
  | SpinNext
  | SpinExit
  | SpinBlocks
  | SpinPanics.

Section Spin.

Variable unicode_ToLower : list byte → list byte.

(** One turn of the loop of [spin], with the sends of [publish] it makes.
    [testEvent] does nothing outside tests, where [testEventCh] is nil.

    Modelled from the spec: [resp2.RawMessage.UnmarshalInto] is not part of
    the sources at hand; by the spec the frame is offered to the codec, that
    is to [UnmarshalRESP] on a new [PubSubMessage]. *)
Definition spin_step (close_res : error) (d : decoded) (c : pubSubConn)
  : spin_status * pubSubConn * list (sink * PubSubMessage) :=
  match d with
  | DecodeTimeout => (SpinNext, c, [])
  | DecodeError e => (SpinExit, (closeInner close_res (Some e) c).2, [])
  | DecodeFrame rm =>
      match UnmarshalRESP unicode_ToLower (mkPubSubMessage "" "" "" []) rm with
      | None => (SpinPanics, c, [])
      | Some (None, m, _) => (SpinNext, c, publish c m)
      | Some (Some _, _, _) =>
          match sendCmdRes None c with
          | Some c' => (SpinNext, c', [])
          | None => (SpinBlocks, c, [])
          end
      end
  end.

End Spin.

(** The calls of the [PubSubConn] interface, each with what its environment
    answers. *)
Inductive api_call : Type :=
  | ApiSubscribe (env : wire_env) (msgCh : sink) (channels : list string)
  | ApiUnsubscribe (env : wire_env) (msgCh : sink) (channels : list string)
  | ApiPSubscribe (env : wire_env) (msgCh : sink) (patterns : list string)
  | ApiPUnsubscribe (env : wire_env) (msgCh : sink) (patterns : list string)
  | ApiPing (env : wire_env)
  | ApiClose (close_res : error).

Definition api_exec (a : api_call) (c : pubSubConn) : status * pubSubConn :=
  match a with
  | ApiSubscribe env msgCh channels => Subscribe env msgCh channels c
  | ApiUnsubscribe env msgCh channels => Unsubscribe env msgCh channels c
  | ApiPSubscribe env msgCh patterns => PSubscribe env msgCh patterns c
  | ApiPUnsubscribe env msgCh patterns => PUnsubscribe env msgCh patterns c
  | ApiPing env => Ping env c
  | ApiClose close_res =>
      let r := Close close_res c in (Returns r.1, r.2)
  end.

(** The send [ch <- err] of [sendCmdRes], made on the channel that
    [getCmdResCh] returned and that was not nil. [sendCmdRes] makes this send
    after [cmdResL] is released, so that a [closeCmdResCh] can come in
    between: it closes the channel and sets the field to nil, the one place
    where the field is set, and a send on a closed channel panics. With the
    channel open the send goes through when the buffer has room and waits
    when it has none. *)
Definition sendCmdRes_send (err : error) (c : pubSubConn)
  : spin_status * pubSubConn :=
  match cmdResCh c with
  | None => (SpinPanics, c)
  | Some buf =>
      if decide (length buf < 1)
      then (SpinNext, set_cmdResCh (Some (buf ++ [err])) c)
      else (SpinBlocks, c)
  end.

(** The states of a connection made by [PubSub], which has no observer:
    those the calls of the interface and the turns of [spin] lead to,
    whatever the environment answers and however each call ends. The second
    component tells whether the reader is inside [sendCmdRes], with the
    channel fetched and its send not made yet; calls of the interface go on
    meanwhile. A call is taken in one piece: [csL], [cmdL] and [close.Do]
    order the calls that share state, and what the reader sends while a call
    waits in [do] is in the [wire_env] of that call. A reader that has
    panicked has no further state. *)
Inductive conn_reachable (unicode_ToLower : list byte → list byte)
  : pubSubConn → bool → Prop :=
  | conn_reachable_new :
      conn_reachable unicode_ToLower (newPubSub None) false
  | conn_reachable_api a c sending :
      conn_reachable unicode_ToLower c sending →
      conn_reachable unicode_ToLower (api_exec a c).2 sending
  | conn_reachable_spin close_res d c :
      conn_reachable unicode_ToLower c false →
      conn_reachable unicode_ToLower
        (spin_step unicode_ToLower close_res d c).1.2 false
  | conn_reachable_fetch c :
      conn_reachable unicode_ToLower c false →
      is_Some (cmdResCh c) →
      conn_reachable unicode_ToLower c true
  | conn_reachable_send c :
      conn_reachable unicode_ToLower c true →
      (sendCmdRes_send None c).1 = SpinNext →
      conn_reachable unicode_ToLower (sendCmdRes_send None c).2 false.

(** A connection is open, with both registries and [cmdResCh] in place and
    [conn.Close] not called, or it is closed, with [conn.Close] called
    once. *)
Definition conn_ok (c : pubSubConn) : Prop :=
  (close_done c = false ∧ is_Some (subs c) ∧ is_Some (psubs c) ∧
   is_Some (cmdResCh c) ∧ close_calls (conn c) = 0)
  ∨ (closed c ∧ closeErrCh c = None ∧ close_calls (conn c) = 1).

(** Two states with the same life cycle: they differ at most in the
    registries, in the commands handed to the connection and in what
    [cmdResCh] holds. *)
Definition same_lifecycle (c c' : pubSubConn) : Prop :=
  close_calls (conn c') = close_calls (conn c) ∧
  close_done c' = close_done c ∧
  closeErr c' = closeErr c ∧
  closeErrCh c' = closeErrCh c ∧
  (cmdResCh c' = None ↔ cmdResCh c = None).

(** What holds all along of a connection without observer: it is open or
    closed, and neither registry keeps a key with an empty set. *)
Definition conn_inv (c : pubSubConn) : Prop :=
  conn_ok c ∧ closeErrCh c = None ∧
  sets_nonempty (subs c) ∧ sets_nonempty (psubs c).

(** * The registry *)

Section Registry.
Implicit Types (cs : chanSet) (s : string) (ch : sink).

Lemma cs_lookup_Some cs s m :
  cs_lookup cs s = Some m ↔ ∃ mp, cs = Some mp ∧ mp !! s = Some m.
Proof.
  unfold cs_lookup. destruct cs as [mp|]; simpl; split.
  - eauto.
  - intros (? & [= <-] & ?). done.
  - done.
  - intros (? & [=] & _).
Qed.

Lemma cs_lookup_fmap_insert cs s s' m :
  cs_lookup (<[s := m]> <$> cs) s' =
  if decide (s = s') then (λ _, m) <$> cs else cs_lookup cs s'.
Proof.
  destruct cs as [mp|]; simpl; [|by case_decide].
  rewrite lookup_insert. by case_decide.
Qed.

Lemma cs_lookup_fmap_delete cs s s' :
  cs_lookup (delete s <$> cs) s' =
  if decide (s = s') then None else cs_lookup cs s'.
Proof.
  destruct cs as [mp|]; simpl; [|by case_decide].
  rewrite lookup_delete. by case_decide.
Qed.

Lemma add_Some cs s ch cs' :
  add s ch cs = Some cs' ↔
  ∃ mp, cs = Some mp ∧
        cs' = Some (<[s := <[ch := true]> (default ∅ (mp !! s))]> mp).
Proof.
  unfold add. destruct cs as [mp|]; simpl.
  - assert (Hr : (match mp !! s with
                  | Some m => Some (Some (<[s := <[ch := true]> m]> mp))
                  | None => Some (Some (<[s := <[ch := true]> ∅]> (<[s := ∅]> mp)))
                  end : option chanSet)
                 = Some (Some (<[s := <[ch := true]> (default ∅ (mp !! s))]> mp))).
    { destruct (mp !! s); simpl; [done|]. by rewrite insert_insert_eq. }
    rewrite Hr. split.
    + intros [= <-]. eauto.
    + intros (? & [= <-] & ->). done.
  - split; [done | intros (? & [=] & _)].
Qed.

Lemma del_cases cs s ch :
  match cs_lookup cs s with
  | None => del s ch cs = (true, cs)
  | Some m =>
      if decide (delete ch m = ∅)
      then del s ch cs = (true, delete s <$> cs)
      else del s ch cs = (false, <[s := delete ch m]> <$> cs)
  end.
Proof.
  unfold del. destruct (cs_lookup cs s) as [m|]; [|done].
  destruct (decide (size (delete ch m) = 0)) as [Hz|Hz];
    destruct (decide (delete ch m = ∅)) as [He|He]; try done.
  - apply map_size_empty_iff in Hz. done.
  - rewrite He, map_size_empty in Hz. done.
Qed.


Lemma cs_lookup_nil s : cs_lookup None s = None.
Proof. done. Qed.

Lemma missing_loop (ss : list string) cs (i : nat) :
  i ≤ length ss →
  foldl (missing_step cs) (ss, 0) (seq 0 i)
  = (filter (λ s, ¬ present cs s) (take i ss)
       ++ drop (length (filter (λ s, ¬ present cs s) (take i ss))) ss,
     length (filter (λ s, ¬ present cs s) (take i ss))).
Proof.
  induction i as [|i IH]; intros Hi.
  { simpl. by rewrite drop_0. }
  rewrite seq_S, foldl_app, IH by lia. clear IH.
  destruct (lookup_lt_is_Some_2 ss i) as [s Hs]; [lia|].
  rewrite (take_S_r _ _ _ Hs), filter_app.
  set (out := filter (λ s, ¬ present cs s) (take i ss)).
  assert (Hlen : length out ≤ i).
  { etrans; [apply length_filter|]. rewrite length_take. lia. }
  simpl. unfold missing_step; simpl.
  rewrite lookup_app_r by lia.
  rewrite lookup_drop.
  replace (length out + (i - length out)) with i by lia.
  rewrite Hs.
  destruct (cs_lookup cs s) as [m|] eqn:E.
  - rewrite filter_cons_False, filter_nil, app_nil_r; [done|].
    intros Hn. apply Hn. unfold present. rewrite E. eauto.
  - rewrite filter_cons_True, filter_nil.
    2:{ unfold present. rewrite E. intros [? [=]]. }
    rewrite length_app. simpl.
    replace (length out + 1) with (S (length out)) by lia.
    f_equal.
    destruct (lookup_lt_is_Some_2 ss (length out)) as [x Hx]; [lia|].
    rewrite (drop_S _ _ _ Hx).
    replace (length out) with (length out + 0) at 1 by lia.
    rewrite insert_app_r. simpl. by rewrite <- app_assoc.
Qed.

(** [missing] returns the keys not in the registry, and leaves them at the
    front of the slice it was given. *)
Lemma missing_spec (ss : list string) cs :
  missing ss cs
  = (absent_keys cs ss,
     absent_keys cs ss ++ drop (length (absent_keys cs ss)) ss).
Proof.
  unfold missing, absent_keys. rewrite missing_loop by done. simpl.
  rewrite firstn_all. by rewrite take_app_length.
Qed.

Lemma del_key_gone_iff cs s ch :
  (del s ch cs).1 = true ↔ cs_lookup (del s ch cs).2 s = None.
Proof.
  pose proof (del_cases cs s ch) as H.
  destruct (cs_lookup cs s) as [m|] eqn:E.
  - destruct (decide (delete ch m = ∅)); rewrite H; simpl.
    + rewrite cs_lookup_fmap_delete. by case_decide.
    + rewrite cs_lookup_fmap_insert. case_decide; [|done].
      apply cs_lookup_Some in E as (mp & -> & _). done.
  - rewrite H. done.
Qed.

(** C8: [del] answers [true] exactly when the key is gone afterwards. It
    does so when the key was absent and when the sink removed was the last
    one, in which case the key is deleted; it answers [false] when other
    sinks remain under the key. *)
Theorem del_true_iff_key_unmapped cs s ch :
  ((del s ch cs).1 = true ↔ cs_lookup (del s ch cs).2 s = None) ∧
  match cs_lookup cs s with
  | None => del s ch cs = (true, cs)
  | Some m =>
      if decide (delete ch m = ∅)
      then del s ch cs = (true, delete s <$> cs)
      else (del s ch cs).1 = false ∧
           cs_lookup (del s ch cs).2 s = Some (delete ch m)
  end.
Proof.
  split; [apply del_key_gone_iff|].
  pose proof (del_cases cs s ch) as H.
  destruct (cs_lookup cs s) as [m|] eqn:E; [|done].
  destruct (decide (delete ch m = ∅)); [done|].
  rewrite H; simpl. split; [done|].
  rewrite cs_lookup_fmap_insert. case_decide; [|done].
  apply cs_lookup_Some in E as (mp & -> & _). done.
Qed.

Lemma add_sets_nonempty cs s ch cs' :
  add s ch cs = Some cs' → sets_nonempty cs → sets_nonempty cs'.
Proof.
  intros (mp & -> & ->)%add_Some Hinv s' m. simpl.
  rewrite lookup_insert. case_decide.
  - intros [= <-]. apply insert_non_empty.
  - intros Hm. by apply (Hinv s').
Qed.

Lemma del_sets_nonempty cs s ch :
  sets_nonempty cs → sets_nonempty (del s ch cs).2.
Proof.
  intros Hinv s' m'.
  pose proof (del_cases cs s ch) as H.
  destruct (cs_lookup cs s) as [m|] eqn:E.
  - destruct (decide (delete ch m = ∅)); rewrite H; simpl.
    + rewrite cs_lookup_fmap_delete. case_decide; [done|]. apply Hinv.
    + rewrite cs_lookup_fmap_insert. case_decide; [|apply Hinv].
      apply cs_lookup_Some in E as (mp & -> & _). simpl. by intros [= <-].
  - rewrite H. apply Hinv.
Qed.

Lemma reachable_not_nil cs : reachable cs → is_Some cs.
Proof.
  induction 1 as [|s ch cs cs' _ _ Ha|s ch cs _ [mp ->]]; [done| |].
  - apply add_Some in Ha as (? & _ & ->). done.
  - pose proof (del_cases (Some mp) s ch) as H.
    destruct (cs_lookup (Some mp) s) as [m|].
    + destruct (decide (delete ch m = ∅)); rewrite H; done.
    + rewrite H. done.
Qed.

(** C9: every registry reached from the empty one by [add] and [del] maps
    each of its keys to a sink set that is not empty; [add] on a new key
    installs a set of one sink, and [del] deletes the key in the very call
    that empties its set. *)
Theorem reachable_sets_nonempty cs :
  reachable cs →
  (∀ s m, cs_lookup cs s = Some m → m ≠ ∅) ∧
  (∀ s ch, cs_lookup cs s = None →
     ∃ cs', add s ch cs = Some cs' ∧ cs_lookup cs' s = Some {[ch := true]}) ∧
  (∀ s ch m, cs_lookup cs s = Some m → delete ch m = ∅ →
     cs_lookup (del s ch cs).2 s = None).
Proof.
  intros Hr. split; [|split].
  - induction Hr as [|s ch cs cs' _ IH Ha|s ch cs _ IH].
    + intros s m. done.
    + by apply (add_sets_nonempty cs s ch).
    + by apply del_sets_nonempty.
  - intros s ch Hs. destruct (reachable_not_nil _ Hr) as [mp ->].
    simpl in Hs. eexists. split.
    + apply add_Some. eauto.
    + simpl. rewrite Hs. simpl. by rewrite lookup_insert_eq.
  - intros s ch m Hs He.
    pose proof (del_cases cs s ch) as H. rewrite Hs in H.
    rewrite decide_True in H by done. rewrite H. simpl.
    rewrite cs_lookup_fmap_delete. by rewrite decide_True.
Qed.

Lemma reachable_sets_nonempty_witness :
  ({[1 := true]} : gmap nat bool) ≠ ∅.
Proof.
  refine (proj1 (reachable_sets_nonempty (Some {["a" := {[1 := true]}]}) _)
            "a" {[1 := true]} _).
  - apply (reachable_add "a" 1 (Some ∅)); [constructor | reflexivity].
  - reflexivity.
Defined.
End Registry.

(** * Fan-out *)

Section Publish.
Implicit Types (c : pubSubConn) (m : PubSubMessage) (ch : sink).

Lemma elem_of_sends (M : gmap nat bool) m ch m' :
  (ch, m') ∈ (λ ch, (ch, m)) <$> (map_to_list M).*1 ↔ m' = m ∧ is_Some (M !! ch).
Proof.
  rewrite list_elem_of_fmap. split.
  - intros (ch0 & [= -> ->] & Hin). split; [done|].
    apply list_elem_of_fmap in Hin as ([k v] & -> & Hkv).
    apply elem_of_map_to_list in Hkv. eauto.
  - intros [-> [v Hv]]. exists ch. split; [done|].
    apply list_elem_of_fmap. exists (ch, v). split; [done|].
    by apply elem_of_map_to_list.
Qed.

Lemma NoDup_sends (M : gmap nat bool) m :
  NoDup ((λ ch, (ch, m)) <$> (map_to_list M).*1).
Proof.
  apply NoDup_fmap_2; [|apply NoDup_fst_map_to_list].
  intros ?? [=]. done.
Qed.

Lemma registered_default cs key ch :
  is_Some (default (∅ : gmap nat bool) (cs_lookup cs key) !! ch)
  ↔ registered cs key ch.
Proof.
  unfold registered. destruct (cs_lookup cs key) as [M|]; simpl.
  - split; [eauto | by intros (? & [= <-] & ?)].
  - rewrite lookup_empty. split; [by intros [? [=]] | by intros (? & [=] & _)].
Qed.

(** C3: a literal message goes to exactly the sinks the literal registry
    holds under its channel, once each; a pattern message goes to exactly
    the sinks the pattern registry holds under its pattern, once each, and
    its channel has no part in the choice of sinks. *)
Theorem publish_routes c m :
  (Type_ m = "message" →
     (∀ ch m', (ch, m') ∈ publish c m ↔
               m' = m ∧ registered (subs c) (Channel m) ch) ∧
     NoDup (publish c m)) ∧
  (Type_ m = "pmessage" →
     (∀ ch m', (ch, m') ∈ publish c m ↔
               m' = m ∧ registered (psubs c) (Pattern m) ch) ∧
     NoDup (publish c m) ∧
     (∀ channel, (publish c (set_Channel channel m)).*1 = (publish c m).*1)).
Proof.
  unfold publish. split; intros Ht; rewrite Ht; simpl.
  - split; [|apply NoDup_sends].
    intros ch m'. rewrite elem_of_sends, registered_default. done.
  - split; [|split; [apply NoDup_sends|]].
    + intros ch m'. rewrite elem_of_sends, registered_default. done.
    + intros channel. cbn [set_Channel Type_ Pattern]. rewrite Ht.
      rewrite decide_True by done.
      rewrite <- !list_fmap_compose. reflexivity.
Qed.

Lemma publish_routes_witness :
  let c := set_subs (Some {["a" := {[1 := true]}; "b" := {[2 := true]}]})
             (newPubSub None) in
  let m := mkPubSubMessage "message" "" "a" [] in
  (1, m) ∈ publish c m ∧ (2, m) ∉ publish c m.
Proof.
  intros c m.
  destruct (proj1 (publish_routes c m) eq_refl) as [Hin _]. split.
  - apply Hin. split; [done|]. exists {[1 := true]}. split; [done|]. by exists true.
  - intros (_ & M & HM & [v Hv])%Hin. vm_compute in HM.
    injection HM as <-. vm_compute in Hv. discriminate.
Defined.
End Publish.

(** * The codec *)

Section CodecFacts.
Variable unicode_ToLower : list byte → list byte.
Implicit Types (m : PubSubMessage) (bb : list (list byte)) (br : list RespItem).

Lemma unmarshal_elems_short m bb :
  length bb < 3 → unmarshal_elems unicode_ToLower m bb = Some (Some too_few, m).
Proof. intros H. unfold unmarshal_elems. by rewrite decide_True. Qed.

Lemma unmarshal_elems_message m b0 c p rest :
  str (ToLower unicode_ToLower b0) = "message" →
  unmarshal_elems unicode_ToLower m (b0 :: c :: p :: rest)
  = Some (None, mkPubSubMessage "message" (Pattern m) (str c) p).
Proof.
  intros H. unfold unmarshal_elems.
  rewrite decide_False by (simpl; lia).
  cbn [set_Type Type_]. rewrite H. reflexivity.
Qed.

Lemma unmarshal_elems_pmessage m b0 pat c p rest :
  str (ToLower unicode_ToLower b0) = "pmessage" →
  unmarshal_elems unicode_ToLower m (b0 :: pat :: c :: p :: rest)
  = Some (None, mkPubSubMessage "pmessage" (str pat) (str c) p).
Proof.
  intros H. unfold unmarshal_elems.
  rewrite decide_False by (simpl; lia).
  cbn [set_Type Type_]. rewrite H. reflexivity.
Qed.

Lemma unmarshal_elems_pmessage_short m b0 x y :
  str (ToLower unicode_ToLower b0) = "pmessage" →
  unmarshal_elems unicode_ToLower m [b0; x; y]
  = Some (Some too_few, set_Type "pmessage" m).
Proof.
  intros H. unfold unmarshal_elems.
  rewrite decide_False by (simpl; lia).
  cbn [set_Type Type_]. rewrite H. reflexivity.
Qed.

Lemma unmarshal_elems_other m b0 x y rest :
  str (ToLower unicode_ToLower b0) ≠ "message" →
  str (ToLower unicode_ToLower b0) ≠ "pmessage" →
  unmarshal_elems unicode_ToLower m (b0 :: x :: y :: rest)
  = Some (Some (fmt_Errorf "not message or pmessage: %q"
                  (str (ToLower unicode_ToLower b0))),
          set_Type (str (ToLower unicode_ToLower b0)) m).
Proof.
  intros H1 H2. unfold unmarshal_elems.
  rewrite decide_False by (simpl; lia).
  cbn [set_Type Type_].
  rewrite (bool_decide_eq_false_2 _ H2). simpl.
  rewrite (bool_decide_eq_true_2 _ H1). reflexivity.
Qed.

Lemma UnmarshalRESP_elems m br bb rest :
  Any_UnmarshalRESP br = inr (bb, rest) →
  UnmarshalRESP unicode_ToLower m br
  = '(e, m') ← unmarshal_elems unicode_ToLower m bb; Some (e, m', rest).
Proof. intros H. unfold UnmarshalRESP. by rewrite H. Qed.


(** C7: the decoder fails on fewer than 3 elements; when the first element
    lower-cases to "pmessage" it fails on fewer than 4 elements and otherwise
    takes the second element as the pattern; on 3 elements or more whose
    first lower-cases to neither "message" nor "pmessage" it fails with the
    error that names the kind; and an empty payload decodes. *)
Theorem UnmarshalRESP_checks m br bb rest :
  Any_UnmarshalRESP br = inr (bb, rest) →
  let r := UnmarshalRESP unicode_ToLower m br in
  (length bb < 3 → r = Some (Some too_few, m, rest)) ∧
  (∀ b0 tl, bb = b0 :: tl → str (ToLower unicode_ToLower b0) = "pmessage" →
     (length bb < 4 → ∃ m', r = Some (Some too_few, m', rest)) ∧
     (4 ≤ length bb →
        ∃ m', r = Some (None, m', rest) ∧ Some (Pattern m') = str <$> bb !! 1)) ∧
  (∀ b0 tl, bb = b0 :: tl → 3 ≤ length bb →
     str (ToLower unicode_ToLower b0) ≠ "message" →
     str (ToLower unicode_ToLower b0) ≠ "pmessage" →
     ∃ m', r = Some (Some (fmt_Errorf "not message or pmessage: %q"
                             (str (ToLower unicode_ToLower b0))), m', rest)) ∧
  (∀ b0 c, bb = [b0; c; []] → str (ToLower unicode_ToLower b0) = "message" →
     ∃ m', r = Some (None, m', rest) ∧ Channel m' = str c ∧ Message m' = []) ∧
  (∀ b0 pat c, bb = [b0; pat; c; []] →
     str (ToLower unicode_ToLower b0) = "pmessage" →
     ∃ m', r = Some (None, m', rest) ∧ Pattern m' = str pat ∧
           Channel m' = str c ∧ Message m' = []).
Proof.
  intros HA r. subst r. rewrite (UnmarshalRESP_elems _ _ _ _ HA).
  split; [|split; [|split; [|split]]].
  - intros H. by rewrite unmarshal_elems_short.
  - intros b0 tl Hbb Hk. split; intros Hlen;
      destruct tl as [|x [|y [|z tl]]]; subst bb; simpl in Hlen; try lia.
    + rewrite unmarshal_elems_short by (simpl; lia). eauto.
    + rewrite unmarshal_elems_short by (simpl; lia). eauto.
    + rewrite unmarshal_elems_pmessage_short by done. eauto.
    + rewrite unmarshal_elems_pmessage by done. eauto.
  - intros b0 tl -> Hlen H1 H2. destruct tl as [|x [|y tl]]; simpl in Hlen;
      try lia.
    rewrite unmarshal_elems_other by done. eauto.
  - intros b0 c -> H. rewrite unmarshal_elems_message by done. eauto.
  - intros b0 pat c -> H. rewrite unmarshal_elems_pmessage by done. eauto 6.
Qed.

(** C10: elements beyond the ones the wire shape declares are ignored. A
    sequence that starts with "message" and goes on after its third element
    decodes with the second element as channel and the third as payload; one
    that starts with "pmessage" and goes on after its fourth element decodes
    from its first four elements alone. *)
Theorem UnmarshalRESP_ignores_extras m br bb rest :
  Any_UnmarshalRESP br = inr (bb, rest) →
  (∀ b0 c p extra, bb = b0 :: c :: p :: extra →
     str (ToLower unicode_ToLower b0) = "message" →
     UnmarshalRESP unicode_ToLower m br
     = Some (None, mkPubSubMessage "message" (Pattern m) (str c) p, rest)) ∧
  (∀ b0 pat c p extra, bb = b0 :: pat :: c :: p :: extra →
     str (ToLower unicode_ToLower b0) = "pmessage" →
     UnmarshalRESP unicode_ToLower m br
     = Some (None, mkPubSubMessage "pmessage" (str pat) (str c) p, rest)).
Proof.
  intros HA. rewrite (UnmarshalRESP_elems _ _ _ _ HA). split.
  - intros b0 c p extra -> H. by rewrite unmarshal_elems_message.
  - intros b0 pat c p extra -> H. by rewrite unmarshal_elems_pmessage.
Qed.

Lemma ToLower_message :
  str (ToLower unicode_ToLower (String.list_byte_of_string "message")) = "message".
Proof. reflexivity. Qed.

Lemma ToLower_pmessage :
  str (ToLower unicode_ToLower (String.list_byte_of_string "pmessage")) = "pmessage".
Proof. reflexivity. Qed.

(** C4: a message of Type "message" written by [MarshalRESP] is read back
    by [UnmarshalRESP] with its channel and payload; one of Type "pmessage"
    with its pattern, channel and payload. *)
Theorem Marshal_Unmarshal_roundtrip m m0 :
  (Type_ m = "message" →
     ∃ w m', MarshalRESP m ([] : list RespItem) = (None, w) ∧
             UnmarshalRESP unicode_ToLower m0 w = Some (None, m', []) ∧
             Type_ m' = "message" ∧
             Channel m' = Channel m ∧ Message m' = Message m) ∧
  (Type_ m = "pmessage" →
     ∃ w m', MarshalRESP m ([] : list RespItem) = (None, w) ∧
             UnmarshalRESP unicode_ToLower m0 w = Some (None, m', []) ∧
             Type_ m' = "pmessage" ∧ Pattern m' = Pattern m ∧
             Channel m' = Channel m ∧ Message m' = Message m).
Proof.
  split; intros Ht; unfold MarshalRESP; rewrite Ht; simpl;
    eexists; eexists; (split; [reflexivity|]).
  - erewrite UnmarshalRESP_elems by reflexivity.
    rewrite unmarshal_elems_message by apply ToLower_message.
    simpl. rewrite String.string_of_list_byte_of_string. done.
  - erewrite UnmarshalRESP_elems by reflexivity.
    rewrite unmarshal_elems_pmessage by apply ToLower_pmessage.
    simpl. rewrite !String.string_of_list_byte_of_string. done.
Qed.

End CodecFacts.

(** The decoder at work on concrete frames, with a stand-in for the Unicode
    path that leaves its input alone. *)
Lemma UnmarshalRESP_checks_witness :
  let m0 := mkPubSubMessage "" "" "" [] in
  (∃ m', UnmarshalRESP id m0
           [ArrayHeader 3; BulkString "MESSAGE"; BulkString "ch";
            BulkStringBytes []]
         = Some (None, m', []) ∧ Channel m' = "ch" ∧ Message m' = []) ∧
  (∃ m', UnmarshalRESP id m0
           [ArrayHeader 3; BulkString "subscribe"; BulkString "ch";
            BulkString "1"]
         = Some (Some (fmt_Errorf "not message or pmessage: %q" "subscribe"),
                 m', [])).
Proof.
  intros m0. split.
  - edestruct (UnmarshalRESP_checks id m0
                 [ArrayHeader 3; BulkString "MESSAGE"; BulkString "ch";
                  BulkStringBytes []]) as (_ & _ & _ & H & _);
      [reflexivity|].
    exact (H _ _ eq_refl eq_refl).
  - edestruct (UnmarshalRESP_checks id m0
                 [ArrayHeader 3; BulkString "subscribe"; BulkString "ch";
                  BulkString "1"]) as (_ & _ & H & _);
      [reflexivity|].
    refine (H _ _ eq_refl _ _ _); [simpl; lia | discriminate | discriminate].
Defined.

Lemma UnmarshalRESP_ignores_extras_witness :
  UnmarshalRESP id (mkPubSubMessage "" "" "" [])
    [ArrayHeader 5; BulkString "PMessage"; BulkString "p*"; BulkString "ch";
     BulkString "x"; BulkString "extra"; ArrayHeader 0]
  = Some (None,
          mkPubSubMessage "pmessage" "p*" "ch" (String.list_byte_of_string "x"),
          [ArrayHeader 0]).
Proof.
  edestruct (UnmarshalRESP_ignores_extras id (mkPubSubMessage "" "" "" [])
               [ArrayHeader 5; BulkString "PMessage"; BulkString "p*";
                BulkString "ch"; BulkString "x"; BulkString "extra";
                ArrayHeader 0]) as [_ H]; [reflexivity|].
  exact (H _ _ _ _ _ eq_refl eq_refl).
Defined.

Lemma Marshal_Unmarshal_roundtrip_witness :
  let m := mkPubSubMessage "pmessage" "p*" "ch" [] in
  ∃ w m', MarshalRESP m ([] : list RespItem) = (None, w) ∧
          UnmarshalRESP id (mkPubSubMessage "" "" "" []) w
          = Some (None, m', []) ∧
          Type_ m' = "pmessage" ∧ Pattern m' = Pattern m ∧
          Channel m' = Channel m ∧ Message m' = Message m.
Proof.
  intros m.
  exact (proj2 (Marshal_Unmarshal_roundtrip id m _) eq_refl).
Defined.

(** Once a write has failed, [MarshalRESP] writes nothing more and returns
    the error of that write. *)
Example MarshalRESP_failed_write :
  MarshalRESP (mkPubSubMessage "pmessage" "p*" "ch" []) (2, [])
  = (Some (foreign_error "short write"),
     (0, [ArrayHeader 4; BulkString "pmessage"])).
Proof. reflexivity. Qed.

(** A Type other than "message" and "pmessage" is refused before anything is
    written. *)
Example MarshalRESP_unknown_Type (w : list RespItem) :
  MarshalRESP (mkPubSubMessage "subscribe" "" "ch" []) w
  = (Some (errors_New "unknown message Type"), w).
Proof. reflexivity. Qed.

(** * The connection *)

Section Facade.
Implicit Types (c : pubSubConn) (env : wire_env) (msgCh : sink)
  (channels : list string) (cs : chanSet) (key : string).

Lemma set_subs_id c : set_subs (subs c) c = c.
Proof. by destruct c. Qed.

Lemma set_psubs_id c : set_psubs (psubs c) c = c.
Proof. by destruct c. Qed.

(** What [do] leaves alone, and what it hands to the connection. *)
Lemma do_wait_frame exp ev c :
  let c' := (do_wait exp ev c).2 in
  conn c' = conn c ∧ subs c' = subs c ∧ psubs c' = psubs c ∧
  close_done c' = close_done c ∧ closeErr c' = closeErr c ∧
  (cmdResCh c = None → c' = c).
Proof.
  revert ev c. induction exp as [|exp IH]; intros ev c; simpl; [done|].
  unfold recvCmdRes.
  destruct (cmdResCh c) as [[|e buf]|] eqn:E.
  - destruct ev as [|[[e|]|] ev]; simpl; try done.
    destruct (IH ev c) as (? & ? & ? & ? & ? & ?).
    repeat split; try done; intros [=].
  - destruct e as [e|]; simpl; [repeat split; try done; intros [=]|].
    destruct (IH ev (set_cmdResCh (Some buf) c)) as (-> & -> & -> & -> & -> & _).
    repeat split; try done; intros [=].
  - simpl. done.
Qed.

Lemma do_frame env exp cmd args c :
  let c' := (do env exp cmd args c).2 in
  encoded (conn c') = encoded (conn c) ++ [mkCmd cmd args] ∧
  subs c' = subs c ∧ psubs c' = psubs c ∧
  close_done c' = close_done c ∧ closeErr c' = closeErr c.
Proof.
  unfold do. destruct (encode_err env) as [e|]; simpl; [done|].
  destruct (do_wait_frame exp (acks env)
              (set_conn (Encode (mkCmd cmd args) (conn c)) c))
    as (-> & -> & -> & -> & -> & _).
  done.
Qed.

(** Once [cmdResCh] is nil, a [do] that expects a reply returns an error:
    the one of [conn.Encode], or "connection closed". *)
Lemma do_closed env exp cmd args c :
  cmdResCh c = None → 0 < exp →
  ∃ e, do env exp cmd args c
       = (Returns (Some e), set_conn (Encode (mkCmd cmd args) (conn c)) c) ∧
       (encode_err env = Some e ∨
        encode_err env = None ∧ e = connection_closed).
Proof.
  intros Hch Hexp. unfold do.
  destruct (encode_err env) as [e|]; [eauto|].
  destruct exp as [|exp]; [lia|]. simpl. unfold recvCmdRes. simpl.
  rewrite Hch. eauto.
Qed.

Lemma add_each_not_nil msgCh channels mp :
  ∃ mp', add_each msgCh channels (Some mp) = Some (Some mp').
Proof.
  revert mp. induction channels as [|s rest IH]; intros mp; simpl; [eauto|].
  destruct (add s msgCh (Some mp)) as [cs'|] eqn:E.
  - apply add_Some in E as (? & [= <-] & ->). simpl. apply IH.
  - exfalso. assert (is_Some (add s msgCh (Some mp))) as [? Hs]; [|congruence].
    eexists. apply add_Some. eauto.
Qed.

(** [del_each] in terms of the keys it finds empty. *)
Lemma del_each_nil msgCh channels acc :
  del_each msgCh channels None acc = (None, acc ++ channels).
Proof.
  revert acc. induction channels as [|s rest IH]; intros acc; simpl.
  - by rewrite app_nil_r.
  - rewrite IH. by rewrite <- app_assoc.
Qed.

Lemma add_each_nil msgCh channels :
  add_each msgCh channels None = if channels is [] then Some None else None.
Proof. by destruct channels. Qed.

Lemma missing_nil channels :
  missing channels None = (channels, channels).
Proof.
  rewrite missing_spec.
  assert (H : absent_keys None channels = channels).
  { unfold absent_keys. induction channels as [|s l IH]; [done|].
    rewrite filter_cons_True by (by intros [? [=]]). by rewrite IH. }
  rewrite H. by rewrite drop_all, app_nil_r.
Qed.


(** ** After [Close] *)

Lemma closed_set_conn x c : closed c → closed (set_conn x c).
Proof. by intros (? & ? & ? & ?). Qed.

Lemma Close_first close_res c0 :
  close_done c0 = false →
  (Close close_res c0).1 = close_res ∧ closed (Close close_res c0).2.
Proof.
  intros H. unfold Close, closeInner. rewrite H. simpl.
  destruct (closeErrCh c0); simpl; done.
Qed.

Lemma Close_again close_res c :
  close_done c = true → Close close_res c = (closeErr c, c).
Proof. intros H. unfold Close, closeInner. by rewrite H. Qed.

Lemma subscribe_with_closed get set cmd env msgCh channels c :
  get c = None → cmdResCh c = None → channels ≠ [] →
  ∃ e, subscribe_with get set cmd env msgCh channels c
       = (Returns (Some e), set_conn (Encode (mkCmd cmd channels) (conn c)) c) ∧
       (encode_err env = Some e ∨
        encode_err env = None ∧ e = connection_closed).
Proof.
  intros Hget Hch Hne. unfold subscribe_with.
  rewrite Hget, missing_nil.
  rewrite decide_True by (destruct channels; simpl; [done|lia]).
  destruct (do_closed env (length channels) cmd channels c Hch)
    as (e & -> & He); [destruct channels; simpl; [done|lia]|].
  eauto.
Qed.

Lemma unsubscribe_with_closed get set cmd env msgCh channels c :
  get c = None → set None c = c → cmdResCh c = None → channels ≠ [] →
  ∃ e, unsubscribe_with get set cmd env msgCh channels c
       = (Returns (Some e), set_conn (Encode (mkCmd cmd channels) (conn c)) c) ∧
       (encode_err env = Some e ∨
        encode_err env = None ∧ e = connection_closed).
Proof.
  intros Hget Hset Hch Hne. unfold unsubscribe_with.
  rewrite Hget, del_each_nil. simpl. rewrite Hset.
  rewrite decide_False by (destruct channels; simpl; [done|lia]).
  apply do_closed; [done|]. destruct channels; simpl; [done|lia].
Qed.

Lemma subscribe_with_no_keys get set cmd env msgCh c :
  set (get c) c = c →
  subscribe_with get set cmd env msgCh [] c = (Returns None, c).
Proof. intros H. unfold subscribe_with. simpl. by rewrite H. Qed.

Lemma unsubscribe_with_no_keys get set cmd env msgCh c :
  set (get c) c = c →
  unsubscribe_with get set cmd env msgCh [] c = (Returns None, c).
Proof. intros H. unfold unsubscribe_with. simpl. by rewrite H. Qed.

(** C5, as the code has it: the first [Close] closes the connection and
    returns what [conn.Close] answered; on a closed connection a further
    [Close] returns the same value and changes nothing, [Ping] and every
    subscription call with at least one key return an error (the one of
    [conn.Encode] when it fails, "connection closed" otherwise) and leave
    the connection closed and [closeErr] as it is, and a subscription call
    without keys returns nil. A second [Close] that overlaps the first waits
    in [close.Do] until the first has run, and so meets the closed
    connection this is about. *)
Theorem calls_after_Close :
  (∀ close_res c0, close_done c0 = false →
     (Close close_res c0).1 = close_res ∧
     closed (Close close_res c0).2 ∧
     closeErr (Close close_res c0).2 = close_res) ∧
  (∀ c, closed c →
     (∀ close_res, Close close_res c = (closeErr c, c)) ∧
     Forall (λ op : wire_env → sink → list string → pubSubConn → status * pubSubConn,
       (∀ env msgCh channels, channels ≠ [] →
          ∃ e, (op env msgCh channels c).1 = Returns (Some e) ∧
               (encode_err env = Some e ∨
                encode_err env = None ∧ e = connection_closed) ∧
               closed (op env msgCh channels c).2 ∧
               closeErr (op env msgCh channels c).2 = closeErr c) ∧
       (∀ env msgCh, op env msgCh [] c = (Returns None, c)))
       [Subscribe; Unsubscribe; PSubscribe; PUnsubscribe] ∧
     (∀ env, ∃ e, (Ping env c).1 = Returns (Some e) ∧
                  (encode_err env = Some e ∨
                   encode_err env = None ∧ e = connection_closed) ∧
                  closed (Ping env c).2 ∧
                  closeErr (Ping env c).2 = closeErr c)).
Proof.
  split.
  - intros close_res c0 H. destruct (Close_first close_res c0 H) as [H1 H2].
    split; [done|]. split; [done|].
    unfold Close, closeInner. rewrite H. simpl.
    destruct (closeErrCh c0); done.
  - intros c Hc. pose proof Hc as (Hd & Hs & Hp & Hch).
    split; [intros; by apply Close_again|]. split.
    + repeat constructor.
      * intros env msgCh channels Hne.
        destruct (subscribe_with_closed subs set_subs "SUBSCRIBE" env msgCh
                    channels c Hs Hch Hne) as (e & He & Hor).
        exists e. unfold Subscribe. rewrite He. simpl.
        repeat split; try done.
      * intros. apply subscribe_with_no_keys, set_subs_id.
      * intros env msgCh channels Hne.
        destruct (unsubscribe_with_closed subs set_subs "UNSUBSCRIBE" env msgCh
                    channels c Hs) as (e & He & Hor); try done.
        { rewrite <- Hs. apply set_subs_id. }
        exists e. unfold Unsubscribe. rewrite He. simpl.
        repeat split; try done.
      * intros. apply unsubscribe_with_no_keys, set_subs_id.
      * intros env msgCh channels Hne.
        destruct (subscribe_with_closed psubs set_psubs "PSUBSCRIBE" env msgCh
                    channels c Hp Hch Hne) as (e & He & Hor).
        exists e. unfold PSubscribe. rewrite He. simpl.
        repeat split; try done.
      * intros. apply subscribe_with_no_keys, set_psubs_id.
      * intros env msgCh channels Hne.
        destruct (unsubscribe_with_closed psubs set_psubs "PUNSUBSCRIBE" env
                    msgCh channels c Hp) as (e & He & Hor); try done.
        { rewrite <- Hp. apply set_psubs_id. }
        exists e. unfold PUnsubscribe. rewrite He. simpl.
        repeat split; try done.
      * intros. apply unsubscribe_with_no_keys, set_psubs_id.
    + intros env. unfold Ping.
      destruct (do_closed env 1 "PING" [] c Hch) as (e & He & Hor); [lia|].
      exists e. rewrite He. simpl. repeat split; try done.
Qed.


Lemma calls_after_Close_witness :
  let c := (Close (Some (foreign_error "EOF")) (newPubSub None)).2 in
  Close None c = (Some (foreign_error "EOF"), c) ∧
  ∃ e, (Ping (mkWireEnv None []) c).1 = Returns (Some e) ∧
       (None = Some e ∨ None = @None goerror ∧ e = connection_closed).
Proof.
  intros c. destruct calls_after_Close as [HA HB].
  destruct (HA (Some (foreign_error "EOF")) (newPubSub None) eq_refl)
    as (_ & Hc & _).
  destruct (HB c Hc) as (Hclose & _ & Hping). split.
  - exact (Hclose None).
  - destruct (Hping (mkWireEnv None [])) as (e & H1 & H2 & _). eauto.
Defined.

(** C5 as stated fails: after [Close], a subscription call without keys
    returns nil, not an error; and a call that does fail returns the error
    of [conn.Encode] when there is one, not "connection closed". *)
Lemma calls_after_Close_counterexample :
  let c := (Close None (newPubSub None)).2 in
  let env := mkWireEnv None [] in
  let broken :=
    mkWireEnv (Some (foreign_error "use of closed network connection")) [] in
  closed c ∧
  (Subscribe env 1 [] c).1 = Returns None ∧
  (Unsubscribe env 1 [] c).1 = Returns None ∧
  (PSubscribe env 1 [] c).1 = Returns None ∧
  (PUnsubscribe env 1 [] c).1 = Returns None ∧
  ¬ (∃ e, (Subscribe env 1 [] c).1 = Returns (Some e)) ∧
  (Ping broken c).1
  = Returns (Some (foreign_error "use of closed network connection")) ∧
  (Ping broken c).1 ≠ Returns (Some connection_closed).
Proof.
  intros c env broken. repeat split; try reflexivity.
  - by intros [e [=]].
  - discriminate.
Qed.

(** ** [Unsubscribe] of a key the sink does not hold *)

Lemma issued_app c c' l :
  encoded (conn c') = encoded (conn c) ++ l → issued c c' = l.
Proof. intros H. unfold issued. rewrite H. by rewrite drop_app_length. Qed.

(** C1, as the code has it: when the key is not in the literal registry,
    [Unsubscribe] leaves the registry as it is but does issue a wire
    UNSUBSCRIBE for the key, expecting one reply, and returns what that
    command returns. It is a call without effect, returning nil, when the key
    is in the registry for other sinks only. *)
Theorem Unsubscribe_not_subscribed env c mp msgCh key :
  subs c = Some mp →
  (mp !! key = None →
     Unsubscribe env msgCh [key] c = do env 1 "UNSUBSCRIBE" [key] c ∧
     subs (Unsubscribe env msgCh [key] c).2 = subs c ∧
     issued c (Unsubscribe env msgCh [key] c).2 = [mkCmd "UNSUBSCRIBE" [key]]) ∧
  (∀ m, mp !! key = Some m → m !! msgCh = None → m ≠ ∅ →
     Unsubscribe env msgCh [key] c = (Returns None, c)).
Proof.
  intros Hs. split.
  - intros Hk.
    assert (Hun : Unsubscribe env msgCh [key] c = do env 1 "UNSUBSCRIBE" [key] c).
    { unfold Unsubscribe, unsubscribe_with. simpl. unfold del.
      rewrite Hs. simpl. rewrite Hk. simpl.
      rewrite <- Hs, set_subs_id. done. }
    rewrite Hun.
    destruct (do_frame env 1 "UNSUBSCRIBE" [key] c) as (He & Hsub & _).
    split; [done|]. split; [done|]. by apply issued_app.
  - intros m Hk Hch Hne.
    unfold Unsubscribe, unsubscribe_with. simpl. unfold del.
    rewrite Hs. simpl. rewrite Hk.
    rewrite delete_id by done.
    rewrite decide_False by (by rewrite map_size_empty_iff).
    simpl. rewrite insert_id by done. rewrite <- Hs, set_subs_id. done.
Qed.

Lemma Unsubscribe_not_subscribed_witness :
  let c := set_subs (Some {["a" := {[1 := true]}]}) (newPubSub None) in
  issued c (Unsubscribe (mkWireEnv None [Got None]) 2 ["b"] c).2
  = [mkCmd "UNSUBSCRIBE" ["b"]] ∧
  Unsubscribe (mkWireEnv None [Got None]) 2 ["a"] c = (Returns None, c).
Proof.
  intros c.
  destruct (Unsubscribe_not_subscribed (mkWireEnv None [Got None]) c
              {["a" := {[1 := true]}]} 2 "b" eq_refl) as [H1 _].
  destruct (Unsubscribe_not_subscribed (mkWireEnv None [Got None]) c
              {["a" := {[1 := true]}]} 2 "a" eq_refl) as [_ H2].
  split.
  - exact (proj2 (proj2 (H1 eq_refl))).
  - refine (H2 {[1 := true]} eq_refl eq_refl _). discriminate.
Defined.

(** C1 as stated fails: on a new connection, where no key is registered,
    [Unsubscribe] hands an UNSUBSCRIBE to the connection, and returns the
    error of that command when it fails. *)
Lemma Unsubscribe_not_subscribed_counterexample :
  let c := newPubSub None in
  let r := Unsubscribe (mkWireEnv None [Got None]) 7 ["news"] c in
  let r' := Unsubscribe (mkWireEnv (Some (foreign_error "broken pipe")) [])
              7 ["news"] c in
  ¬ present (subs c) "news" ∧ ¬ registered (subs c) "news" 7 ∧
  issued c r.2 = [mkCmd "UNSUBSCRIBE" ["news"]] ∧
  r'.1 = Returns (Some (foreign_error "broken pipe")) ∧
  ¬ (issued c r.2 = [] ∧ r'.1 = Returns None).
Proof.
  intros c r r'. split; [|split; [|split; [|split]]].
  - by intros [? [=]].
  - by intros (? & [=] & _).
  - reflexivity.
  - reflexivity.
  - by intros [[=] _].
Qed.

(** ** [Subscribe] *)

(** [Subscribe] with [missing] replaced by what it computes: the second
    loop runs over the slice as [missing] has left it. *)
Lemma subscribe_with_unfold get set cmd env msgCh channels c :
  subscribe_with get set cmd env msgCh channels c =
  let ms := absent_keys (get c) channels in
  let r := if decide (0 < length ms)
           then do env (length ms) cmd ms c else (Returns None, c) in
  match r with
  | (Returns None, c1) =>
      match add_each msgCh (ms ++ drop (length ms) channels) (get c1) with
      | Some cs => (Returns None, set cs c1)
      | None => (Panics, c1)
      end
  | _ => r
  end.
Proof. unfold subscribe_with. by rewrite missing_spec. Qed.

(** A failed wire command leaves both registries as they were. *)
Lemma Subscribe_error_keeps_registries env msgCh channels c e :
  (Subscribe env msgCh channels c).1 = Returns (Some e) →
  subs (Subscribe env msgCh channels c).2 = subs c ∧
  psubs (Subscribe env msgCh channels c).2 = psubs c.
Proof.
  unfold Subscribe. rewrite subscribe_with_unfold. simpl.
  destruct (decide (0 < length (absent_keys (subs c) channels))) as [Hl|Hl].
  - destruct (do_frame env (length (absent_keys (subs c) channels)) "SUBSCRIBE"
                (absent_keys (subs c) channels) c) as (_ & Hs & Hp & _).
    destruct (do _ _ _ _ _) as [[[e'|]| |] c1]; simpl in *; try done.
    destruct (add_each _ _ _); simpl; done.
  - destruct (add_each _ _ _); simpl; done.
Qed.

Lemma PSubscribe_error_keeps_registries env msgCh patterns c e :
  (PSubscribe env msgCh patterns c).1 = Returns (Some e) →
  subs (PSubscribe env msgCh patterns c).2 = subs c ∧
  psubs (PSubscribe env msgCh patterns c).2 = psubs c.
Proof.
  unfold PSubscribe. rewrite subscribe_with_unfold. simpl.
  destruct (decide (0 < length (absent_keys (psubs c) patterns))) as [Hl|Hl].
  - destruct (do_frame env (length (absent_keys (psubs c) patterns)) "PSUBSCRIBE"
                (absent_keys (psubs c) patterns) c) as (_ & Hs & Hp & _).
    destruct (do _ _ _ _ _) as [[[e'|]| |] c1]; simpl in *; try done.
    destruct (add_each _ _ _); simpl; done.
  - destruct (add_each _ _ _); simpl; done.
Qed.

(** C6 fails on the code. With "a" held by sink 1, sink 2 subscribes to
    "a" and "b" and the wire SUBSCRIBE succeeds: [missing] has overwritten
    "a" by "b" in [channels], so sink 2 is added under "b" only. The same
    happens in [PSubscribe]. *)
Theorem Subscribe_loses_known_key :
  let c := set_subs (Some {["a" := {[1 := true]}]}) (newPubSub None) in
  let r := Subscribe (mkWireEnv None [Got None]) 2 ["a"; "b"] c in
  let c' := set_psubs (Some {["a*" := {[1 := true]}]}) (newPubSub None) in
  let r' := PSubscribe (mkWireEnv None [Got None]) 2 ["a*"; "b*"] c' in
  (missing ["a"; "b"] (subs c) = (["b"], ["b"; "b"]) ∧
   r.1 = Returns None ∧ issued c r.2 = [mkCmd "SUBSCRIBE" ["b"]] ∧
   registered (subs r.2) "b" 2 ∧ registered (subs r.2) "a" 1 ∧
   ¬ registered (subs r.2) "a" 2) ∧
  (r'.1 = Returns None ∧ registered (psubs r'.2) "b*" 2 ∧
   ¬ registered (psubs r'.2) "a*" 2).
Proof.
  intros c r c' r'.
  repeat split; try reflexivity;
    match goal with
    | |- ?P => apply (bool_decide_unpack P); vm_compute; exact I
    end.
Qed.


(** ** Wire SUBSCRIBEs along a sequence of calls *)

Lemma subscribe_count_app key l1 l2 :
  subscribe_count key (l1 ++ l2)
  = subscribe_count key l1 + subscribe_count key l2.
Proof. unfold subscribe_count. by rewrite filter_app, length_app. Qed.

Lemma subscribe_count_le key l : subscribe_count key l ≤ length l.
Proof. apply length_filter. Qed.

Lemma absent_keys_nil_iff cs channels :
  absent_keys cs channels = [] ↔ ¬ (0 < length (absent_keys cs channels)).
Proof. destruct (absent_keys cs channels); simpl; split; try done; lia. Qed.

(** What [Subscribe] hands to the connection. *)
Lemma Subscribe_encoded env msgCh channels c :
  encoded (conn (Subscribe env msgCh channels c).2)
  = encoded (conn c) ++
    (if decide (absent_keys (subs c) channels = []) then []
     else [mkCmd "SUBSCRIBE" (absent_keys (subs c) channels)]).
Proof.
  unfold Subscribe. rewrite subscribe_with_unfold. simpl.
  destruct (decide (0 < length (absent_keys (subs c) channels))) as [Hl|Hl].
  - rewrite decide_False by (rewrite absent_keys_nil_iff; tauto).
    destruct (do_frame env (length (absent_keys (subs c) channels)) "SUBSCRIBE"
                (absent_keys (subs c) channels) c) as (He & _).
    destruct (do _ _ _ _ _) as [[[e'|]| |] c1]; simpl in *; try done.
    destruct (add_each _ _ _); simpl; done.
  - rewrite decide_True by (by rewrite absent_keys_nil_iff).
    rewrite app_nil_r. destruct (add_each _ _ _); simpl; done.
Qed.

(** What [Unsubscribe] hands to the connection: at most an UNSUBSCRIBE. *)
Lemma Unsubscribe_encoded env msgCh channels c :
  ∃ l, encoded (conn (Unsubscribe env msgCh channels c).2)
       = encoded (conn c) ++ l ∧
       (l = [] ∨ ∃ args, l = [mkCmd "UNSUBSCRIBE" args]).
Proof.
  unfold Unsubscribe, unsubscribe_with.
  destruct (del_each msgCh channels (subs c) []) as [cs empties].
  destruct (decide (length empties = 0)).
  - exists []. simpl. rewrite app_nil_r. eauto.
  - destruct (do_frame env (length empties) "UNSUBSCRIBE" empties
                (set_subs cs c)) as (He & _).
    eexists. split; [exact He|]. eauto.
Qed.

Lemma absent_keys_not_present cs channels key :
  present cs key → key ∉ absent_keys cs channels.
Proof.
  intros Hp Hin. unfold absent_keys in Hin.
  apply list_elem_of_filter in Hin as [Hn _]. done.
Qed.

(** One call issues at most one command, and no SUBSCRIBE for a key that is
    in the registry when the call starts. *)
Lemma exec_encoded cl env c key :
  ∃ l, encoded (conn (exec cl env c).2) = encoded (conn c) ++ l ∧
       length l ≤ 1 ∧
       (present (subs c) key → subscribe_count key l = 0).
Proof.
  destruct cl as [msgCh channels|msgCh channels]; simpl.
  - eexists. split; [apply Subscribe_encoded|].
    case_decide as Hd; simpl; [split; [lia|done]|]. split; [lia|].
    intros Hp. unfold subscribe_count.
    rewrite filter_cons_False, filter_nil; [done|].
    unfold subscribes. rewrite bool_decide_eq_true. simpl.
    intros [_ Hin]. by apply (absent_keys_not_present _ _ _ Hp) in Hin.
  - destruct (Unsubscribe_encoded env msgCh channels c) as (l & He & Hl).
    exists l. split; [done|].
    destruct Hl as [->|[args ->]]; simpl; [split; [lia|done]|].
    split; [lia|]. intros _. unfold subscribe_count.
    rewrite filter_cons_False, filter_nil; [done|].
    unfold subscribes. rewrite bool_decide_eq_true. simpl.
    by intros [[=] _].
Qed.

Lemma run_encoded key steps c :
  held key steps c →
  ∃ l, encoded (conn (run steps c).2) = encoded (conn c) ++ l ∧
       subscribe_count key l = 0.
Proof.
  revert c. induction steps as [|[cl env] rest IH]; intros c; simpl.
  - intros _. exists []. by rewrite app_nil_r.
  - intros [Hp Hh].
    destruct (exec_encoded cl env c key) as (l1 & He1 & _ & Hc1).
    specialize (Hc1 Hp).
    destruct (exec cl env c) as [[e| |] c1]; simpl in *; eauto.
    destruct (IH c1 Hh) as (l2 & He2 & Hc2).
    exists (l1 ++ l2). rewrite He2, He1, app_assoc. split; [done|].
    rewrite subscribe_count_app. lia.
Qed.


(** C2: on a connection whose literal registry is in place, a [Subscribe]
    whose keys are all registered returns without touching the connection;
    otherwise it issues one SUBSCRIBE, naming the requested keys that are not
    registered, and waits for as many replies as it names keys. Along any
    sequence of [Subscribe] and [Unsubscribe] calls, from one call to the
    last call before which the key has stayed in the registry, at most one
    SUBSCRIBE names the key. *)
Theorem SUBSCRIBE_once_per_key :
  (∀ env msgCh channels c, is_Some (subs c) →
     (absent_keys (subs c) channels = [] →
        (Subscribe env msgCh channels c).1 = Returns None ∧
        conn (Subscribe env msgCh channels c).2 = conn c) ∧
     (absent_keys (subs c) channels ≠ [] →
        issued c (Subscribe env msgCh channels c).2
        = [mkCmd "SUBSCRIBE" (absent_keys (subs c) channels)] ∧
        (Subscribe env msgCh channels c).1
        = (do env (length (absent_keys (subs c) channels)) "SUBSCRIBE"
             (absent_keys (subs c) channels) c).1) ∧
     (∀ key, key ∈ absent_keys (subs c) channels ↔
             key ∈ channels ∧ ¬ present (subs c) key)) ∧
  (∀ key first env rest c,
     held key rest (exec first env c).2 →
     subscribe_count key (issued c (run ((first, env) :: rest) c).2) ≤ 1).
Proof.
  split.
  - intros env msgCh channels c [mp Hs]. split; [|split].
    + intros Hms. unfold Subscribe. rewrite subscribe_with_unfold. simpl.
      rewrite Hms. simpl. rewrite Hs.
      destruct (add_each_not_nil msgCh (drop 0 channels) mp) as [mp' ->].
      done.
    + intros Hms. split.
      { apply issued_app. rewrite Subscribe_encoded.
        by rewrite decide_False. }
      unfold Subscribe. rewrite subscribe_with_unfold. simpl.
      rewrite decide_True
        by (destruct (absent_keys (subs c) channels); simpl; [done|lia]).
      destruct (do_frame env (length (absent_keys (subs c) channels)) "SUBSCRIBE"
                  (absent_keys (subs c) channels) c) as (_ & Hsub & _).
      destruct (do _ _ _ _ _) as [[[e|]| |] c1]; simpl in *; try done.
      rewrite Hsub, Hs.
      destruct (add_each_not_nil msgCh
                  (absent_keys (Some mp) channels
                     ++ drop (length (absent_keys (Some mp) channels)) channels)
                  mp) as [mp' ->].
      done.
    + intros key. unfold absent_keys. rewrite list_elem_of_filter. tauto.
  - intros key first env rest c Hh. simpl.
    destruct (exec_encoded first env c key) as (l1 & He1 & Hlen & _).
    destruct (exec first env c) as [[e| |] c1]; simpl in *.
    + destruct (run_encoded key rest c1 Hh) as (l2 & He2 & Hc2).
      rewrite (issued_app c _ (l1 ++ l2)) by (by rewrite He2, He1, app_assoc).
      rewrite subscribe_count_app, Hc2.
      pose proof (subscribe_count_le key l1). lia.
    + rewrite (issued_app c _ l1) by done.
      pose proof (subscribe_count_le key l1). lia.
    + rewrite (issued_app c _ l1) by done.
      pose proof (subscribe_count_le key l1). lia.
Qed.

(** Sinks 1 and 2 subscribe to "a", sink 1 leaves, sink 3 joins: one
    SUBSCRIBE for "a" goes out in all. With "a" registered, a call for "a"
    and "b" issues a SUBSCRIBE for "b" alone. *)
Lemma SUBSCRIBE_once_per_key_witness :
  let ok := mkWireEnv None [Got None] in
  let c := set_subs (Some {["a" := {[1 := true]}]}) (newPubSub None) in
  subscribe_count "a"
    (issued (newPubSub None)
       (run [(CallSubscribe 1 ["a"], ok); (CallSubscribe 2 ["a"; "a"], ok);
             (CallUnsubscribe 1 ["a"], ok); (CallSubscribe 3 ["a"], ok)]
          (newPubSub None)).2) ≤ 1 ∧
  issued c (Subscribe ok 2 ["a"; "b"] c).2 = [mkCmd "SUBSCRIBE" ["b"]] ∧
  (Subscribe ok 2 ["a"] c).1 = Returns None.
Proof.
  intros ok c. split; [|split].
  - refine (proj2 SUBSCRIBE_once_per_key "a" (CallSubscribe 1 ["a"]) ok
              [(CallSubscribe 2 ["a"; "a"], ok); (CallUnsubscribe 1 ["a"], ok);
               (CallSubscribe 3 ["a"], ok)] (newPubSub None) _).
    simpl. repeat split; apply (bool_decide_unpack _); vm_compute; exact I.
  - refine (proj1 (proj1 (proj2 (proj1 SUBSCRIBE_once_per_key ok 2 ["a"; "b"] c
                                   (ex_intro _ _ eq_refl))) _)).
    discriminate.
  - exact (proj1 (proj1 (proj1 SUBSCRIBE_once_per_key ok 2 ["a"] c
                           (ex_intro _ _ eq_refl)) eq_refl)).
Defined.

End Facade.

(** * What a successful [Subscribe] registers *)

Section SubscribeRegisters.
Implicit Types (c : pubSubConn) (env : wire_env) (msgCh ch : sink)
  (channels : list string) (cs : chanSet) (key : string).

Lemma add_registered s msgCh cs cs' key ch :
  add s msgCh cs = Some cs' →
  registered cs' key ch ↔ (key = s ∧ ch = msgCh) ∨ registered cs key ch.
Proof.
  intros (mp & -> & ->)%add_Some.
  rewrite <- !registered_default. simpl.
  rewrite lookup_insert. case_decide as Hk; simpl.
  - subst s. rewrite lookup_insert. case_decide as Hc.
    + subst. split; [eauto|]. intros _. done.
    + split; [eauto|]. intros [[_ ?]|?]; done.
  - split; [eauto|]. intros [[? _]|?]; done.
Qed.

Lemma add_each_registered msgCh channels cs cs' key ch :
  add_each msgCh channels cs = Some cs' →
  registered cs' key ch ↔
  (key ∈ channels ∧ ch = msgCh) ∨ registered cs key ch.
Proof.
  revert cs. induction channels as [|s rest IH]; intros cs; simpl.
  - intros [= <-]. rewrite elem_of_nil. tauto.
  - destruct (add s msgCh cs) as [cs1|] eqn:E; simpl; [|done].
    intros H. rewrite (IH _ H), (add_registered _ _ _ _ _ _ E).
    rewrite elem_of_cons. tauto.
Qed.

(** After a [Subscribe] that returned nil, the sink is registered under the
    keys of [channels] as [missing] has left it: the keys that were not in
    the registry, and the requested keys from position [len(missing)] on. A
    requested key that was in the registry and stands before that position
    only is not among them. *)
Lemma Subscribe_registers env msgCh channels c key ch :
  (Subscribe env msgCh channels c).1 = Returns None →
  registered (subs (Subscribe env msgCh channels c).2) key ch ↔
  (key ∈ absent_keys (subs c) channels
           ++ drop (length (absent_keys (subs c) channels)) channels
   ∧ ch = msgCh)
  ∨ registered (subs c) key ch.
Proof.
  unfold Subscribe. rewrite subscribe_with_unfold. simpl.
  set (ms := absent_keys (subs c) channels).
  assert (Hr : ∀ c1, subs c1 = subs c →
    (match add_each msgCh (ms ++ drop (length ms) channels) (subs c1) with
     | Some cs => (Returns None, set_subs cs c1)
     | None => (Panics, c1)
     end).1 = Returns None →
    registered
      (subs (match add_each msgCh (ms ++ drop (length ms) channels) (subs c1) with
             | Some cs => (Returns None, set_subs cs c1)
             | None => (Panics, c1)
             end).2) key ch ↔
    (key ∈ ms ++ drop (length ms) channels ∧ ch = msgCh)
    ∨ registered (subs c) key ch).
  { intros c1 Hc1. rewrite Hc1.
    destruct (add_each msgCh _ (subs c)) as [cs'|] eqn:E; simpl; [|done].
    intros _. by apply add_each_registered. }
  destruct (decide (0 < length ms)).
  - destruct (do_frame env (length ms) "SUBSCRIBE" ms c) as (_ & Hs & _).
    destruct (do _ _ _ _ _) as [[[e|]| |] c1]; simpl in *; try done.
    by apply Hr.
  - by apply Hr.
Qed.

End SubscribeRegisters.

(** * Further properties of the registry *)

Section RegistryMore.
Implicit Types (cs : chanSet) (s key : string) (ch msgCh : sink).

(** X1: [missing] returns the keys of its argument that are not in the
    registry, each as often and in the order it stands there: the argument
    filtered. The argument slice itself is left holding that result at its
    front, followed by what it held behind it before; its length is as it
    was. *)
Theorem missing_result_and_argument (ss : list string) cs :
  (missing ss cs).1 = filter (λ key, ¬ present cs key) ss ∧
  (missing ss cs).2
  = filter (λ key, ¬ present cs key) ss
      ++ drop (length (filter (λ key, ¬ present cs key) ss)) ss ∧
  length (missing ss cs).2 = length ss.
Proof.
  rewrite missing_spec. unfold absent_keys. simpl.
  split; [done|]. split; [done|].
  pose proof (length_filter (λ key, ¬ present cs key) ss).
  rewrite length_app, length_drop. lia.
Qed.

Lemma registered_nil key ch : ¬ registered None key ch.
Proof. by intros (? & [=] & _). Qed.

Lemma del_registered s msgCh cs key ch :
  registered (del s msgCh cs).2 key ch ↔
  registered cs key ch ∧ ¬ (key = s ∧ ch = msgCh).
Proof.
  pose proof (del_cases cs s msgCh) as H.
  destruct (cs_lookup cs s) as [m|] eqn:E.
  - apply cs_lookup_Some in E as (mp & -> & Hm).
    destruct (decide (delete msgCh m = ∅)) as [He|He]; rewrite H;
      rewrite <- !registered_default; simpl.
    + rewrite lookup_delete. case_decide as Hk; simpl.
      * subst key. rewrite Hm. simpl. rewrite lookup_empty. split.
        { by intros [? [=]]. }
        intros [[v Hv] Hn]. exfalso. apply Hn. split; [done|].
        destruct (decide (ch = msgCh)) as [|Hne]; [done|].
        assert (delete msgCh m !! ch = Some v) as Hd
          by (by rewrite lookup_delete_ne).
        rewrite He, lookup_empty in Hd. done.
      * split; [|tauto]. intros Hr. split; [done|]. by intros [-> _].
    + rewrite lookup_insert. case_decide as Hk; simpl.
      * subst key. rewrite Hm. simpl. rewrite lookup_delete.
        case_decide as Hc; simpl.
        { subst. split; [by intros [? [=]] | intros [_ Hn]; by destruct Hn]. }
        split; [|tauto]. intros Hr. split; [done|]. intros [_ ->]. done.
      * split; [|tauto]. intros Hr. split; [done|]. by intros [-> _].
  - rewrite H. simpl. split; [|tauto]. intros Hr. split; [done|].
    intros [-> _]. destruct Hr as (m & Hm & _). congruence.
Qed.

Lemma del_true_iff_no_other_sink s msgCh cs :
  (del s msgCh cs).1 = true ↔ no_other_sink cs msgCh s.
Proof.
  unfold no_other_sink.
  pose proof (del_cases cs s msgCh) as H.
  destruct (cs_lookup cs s) as [m|]; simpl.
  - destruct (decide (delete msgCh m = ∅)); rewrite H; simpl; split;
      done.
  - rewrite H. simpl. by rewrite delete_empty.
Qed.

Lemma no_other_sink_iff cs msgCh key :
  no_other_sink cs msgCh key ↔ ∀ ch, registered cs key ch → ch = msgCh.
Proof.
  unfold no_other_sink. rewrite map_empty. split.
  - intros H ch Hr. apply registered_default in Hr as [v Hv].
    destruct (decide (ch = msgCh)) as [|Hne]; [done|].
    specialize (H ch). rewrite lookup_delete_ne in H by done. congruence.
  - intros H ch. rewrite lookup_delete. case_decide; [done|].
    destruct (default ∅ (cs_lookup cs key) !! ch) as [v|] eqn:E; [|done].
    exfalso. assert (ch = msgCh); [|done].
    apply H, registered_default. eauto.
Qed.

(** X2: [add] panics on a nil registry and on no other. After it the sink is
    held under the key, nothing else has changed, and to [add] the same pair
    again changes nothing. *)
Theorem add_registers s msgCh cs :
  (cs = None → add s msgCh cs = None) ∧
  (is_Some cs →
     ∃ cs', add s msgCh cs = Some cs' ∧ is_Some cs' ∧
            (∀ key ch, registered cs' key ch ↔
                       (key = s ∧ ch = msgCh) ∨ registered cs key ch) ∧
            add s msgCh cs' = Some cs').
Proof.
  split; [by intros ->|]. intros [mp ->].
  eexists. split; [apply add_Some; eauto|]. split; [done|]. split.
  - intros key ch. apply add_registered. apply add_Some. eauto.
  - apply add_Some. eexists. split; [done|].
    rewrite lookup_insert_eq. simpl.
    by rewrite !insert_insert_eq.
Qed.

Lemma add_registers_witness :
  ∃ cs', add "a" 2 (Some {["a" := {[1 := true]}]}) = Some cs' ∧
         registered cs' "a" 1 ∧ registered cs' "a" 2.
Proof.
  destruct (proj2 (add_registers "a" 2 (Some {["a" := {[1 := true]}]}))
              (ex_intro _ _ eq_refl)) as (cs' & Ha & _ & Hr & _).
  exists cs'. split; [done|]. split; apply Hr.
  - right. exists {[1 := true]}. split; [done|]. by exists true.
  - by left.
Defined.

(** X3: [del] takes the one pair away and no other, and it answers [true]
    exactly when no other sink was held under the key. *)
Theorem del_unregisters s msgCh cs :
  (∀ key ch, registered (del s msgCh cs).2 key ch ↔
             registered cs key ch ∧ ¬ (key = s ∧ ch = msgCh)) ∧
  ((del s msgCh cs).1 = true ↔
   ∀ ch, registered cs s ch → ch = msgCh).
Proof.
  split; [intros; apply del_registered|].
  rewrite del_true_iff_no_other_sink. apply no_other_sink_iff.
Qed.


(** X4: on a registry that keeps no key with an empty set, to [add] a pair
    that is not there and to [del] it again gives the registry back; [del]
    answers [true] exactly when the key was new. *)
Theorem add_del_roundtrip s msgCh cs cs1 :
  sets_nonempty cs → ¬ registered cs s msgCh →
  add s msgCh cs = Some cs1 →
  del s msgCh cs1 = (bool_decide (¬ present cs s), cs).
Proof.
  intros Hinv Hnr (mp & -> & ->)%add_Some.
  unfold del. simpl. rewrite lookup_insert_eq.
  destruct (mp !! s) as [m|] eqn:E; simpl.
  - assert (m !! msgCh = None) as Hm.
    { destruct (m !! msgCh) eqn:E'; [|done]. exfalso. apply Hnr.
      exists m. split; [done|]. rewrite E'. eauto. }
    rewrite delete_insert_id by done.
    rewrite decide_False.
    2:{ rewrite map_size_empty_iff. by apply (Hinv s). }
    rewrite insert_insert_eq, insert_id by done.
    rewrite bool_decide_eq_false_2; [done|].
    intros Hn. apply Hn. unfold present. simpl. rewrite E. eauto.
  - rewrite delete_insert_id by done.
    rewrite decide_True by apply map_size_empty.
    rewrite delete_insert_id by done.
    rewrite bool_decide_eq_true_2; [done|].
    unfold present. simpl. rewrite E. by intros [? [=]].
Qed.

Lemma add_del_roundtrip_witness :
  del "b" 2 (Some {["a" := {[1 := true]}; "b" := {[2 := true]}]})
  = (true, Some {["a" := {[1 := true]}]}).
Proof.
  refine (add_del_roundtrip "b" 2 (Some {["a" := {[1 := true]}]}) _ _ _ _).
  - intros s m. simpl. rewrite lookup_singleton. case_decide; [|done].
    intros [= <-]. discriminate.
  - intros (m & Hm & _). discriminate.
  - reflexivity.
Defined.

(** X5: in a registry reached from the empty one, a key is present exactly
    when some sink is held under it. *)
Theorem reachable_present_iff_registered cs key :
  reachable cs → (present cs key ↔ ∃ ch, registered cs key ch).
Proof.
  intros Hr.
  assert (Hinv : sets_nonempty cs).
  { clear key. induction Hr as [|s ch cs cs' _ IH Ha|s ch cs _ IH].
    - intros s m. done.
    - by apply (add_sets_nonempty cs s ch).
    - by apply del_sets_nonempty. }
  split.
  - intros [m Hm]. destruct (map_choose m) as (ch & v & Hv).
    + by apply (Hinv key).
    + exists ch, m. split; [done|]. eauto.
  - intros (ch & m & Hm & _). by exists m.
Qed.

Lemma reachable_present_iff_registered_witness :
  present (Some {["a" := {[1 := true]}]}) "a" ↔
  ∃ ch, registered (Some {["a" := {[1 := true]}]}) "a" ch.
Proof.
  apply reachable_present_iff_registered.
  apply (reachable_add "a" 1 (Some ∅)); [constructor | reflexivity].
Defined.


(** ** [inverse] *)

Lemma inverse_step_lookup s (inv : gmap nat (list string)) ch ch' :
  default [] (inverse_step s inv ch !! ch')
  = default [] (inv !! ch') ++ (if decide (ch' = ch) then [s] else []).
Proof.
  unfold inverse_step. rewrite lookup_insert.
  destruct (decide (ch = ch')) as [->|Hne]; simpl.
  - by rewrite decide_True.
  - rewrite decide_False by done. by rewrite app_nil_r.
Qed.

Lemma inverse_inner_lookup s (chs : list sink) (inv : gmap nat (list string)) ch :
  NoDup chs →
  default [] (foldl (inverse_step s) inv chs !! ch)
  = default [] (inv !! ch) ++ (if decide (ch ∈ chs) then [s] else []).
Proof.
  intros Hnd. revert inv.
  induction Hnd as [|c chs Hc Hnd IH]; intros inv; cbn [foldl].
  - destruct (decide (ch ∈ [])) as [H%elem_of_nil|]; [done|].
    by rewrite app_nil_r.
  - rewrite IH, inverse_step_lookup. rewrite <- app_assoc. f_equal.
    destruct (decide (ch = c)) as [Heq|Hne].
    + subst c. destruct (decide (ch ∈ chs)); [done|].
      destruct (decide (ch ∈ ch :: chs)) as [|Hn]; [done|].
      exfalso. apply Hn, list_elem_of_here.
    + simpl. destruct (decide (ch ∈ chs)) as [Hin|Hin];
        destruct (decide (ch ∈ c :: chs)) as [Hi|Hn]; try done.
      * exfalso. by apply Hn, list_elem_of_further.
      * exfalso. apply elem_of_cons in Hi as [?|?]; done.
Qed.

Lemma inverse_outer_lookup (order : list (string * list sink))
    (inv : gmap nat (list string)) ch :
  Forall (λ o, NoDup o.2) order →
  default []
    (foldl (λ inv '(s, chs), foldl (inverse_step s) inv chs) inv order !! ch)
  = default [] (inv !! ch) ++ (filter (λ o, ch ∈ o.2) order).*1.
Proof.
  intros Hnd. revert inv.
  induction Hnd as [|[s chs] order Hc Hnd IH]; intros inv; simpl.
  - by rewrite app_nil_r.
  - rewrite IH, inverse_inner_lookup by done.
    destruct (decide (ch ∈ chs)) as [Hin|Hin].
    + rewrite filter_cons_True by done. simpl. by rewrite <- app_assoc.
    + rewrite filter_cons_False by done. by rewrite app_nil_r.
Qed.

Lemma inverse_step_nonempty s (inv : gmap nat (list string)) ch :
  (∀ c l, inv !! c = Some l → l ≠ []) →
  ∀ c l, inverse_step s inv ch !! c = Some l → l ≠ [].
Proof.
  intros H c l. unfold inverse_step. rewrite lookup_insert.
  case_decide; [|apply H]. intros [= <-]. by destruct (default [] (inv !! ch)).
Qed.

Lemma inverse_over_nonempty (order : list (string * list sink))
    (inv : gmap nat (list string)) :
  (∀ c l, inv !! c = Some l → l ≠ []) →
  ∀ c l, foldl (λ inv '(s, chs), foldl (inverse_step s) inv chs) inv order !! c
         = Some l → l ≠ [].
Proof.
  revert inv. induction order as [|[s chs] order IH]; intros inv H; simpl;
    [done|].
  apply IH. clear IH. revert inv H.
  induction chs as [|ch chs IH]; intros inv H; simpl; [done|].
  apply IH. by apply inverse_step_nonempty.
Qed.

Lemma filter_fst_sublist {A B} (P : A * B → Prop) `{∀ x, Decision (P x)}
    (l : list (A * B)) :
  (filter P l).*1 `sublist_of` l.*1.
Proof.
  induction l as [|x l IH]; simpl; [done|].
  destruct (decide (P x)).
  - rewrite filter_cons_True by done. simpl. by constructor.
  - rewrite filter_cons_False by done. by constructor.
Qed.

Lemma range_order_keys (mp : gmap string (gmap nat bool)) l order :
  l ≡ₚ map_to_list mp →
  Forall2 (λ (e : string * gmap nat bool) (o : string * list sink),
             o.1 = e.1 ∧ o.2 ≡ₚ (map_to_list e.2).*1) l order →
  NoDup order.*1 ∧ Forall (λ o, NoDup o.2) order ∧
  ∀ s ch, (∃ chs, (s, chs) ∈ order ∧ ch ∈ chs) ↔
          ∃ m, mp !! s = Some m ∧ is_Some (m !! ch).
Proof.
  intros Hp HF.
  assert (Hfst : order.*1 = l.*1).
  { clear Hp. induction HF as [|e o l order [Ho _] _ IH]; [done|].
    rewrite !fmap_cons. by rewrite Ho, IH. }
  split; [|split].
  - rewrite Hfst, Hp. apply NoDup_fst_map_to_list.
  - clear Hp Hfst. induction HF as [|e o l order [_ Ho] _ IH];
      constructor; [|done].
    rewrite Ho. apply NoDup_fst_map_to_list.
  - intros s ch.
    assert (Hl : (∃ chs, (s, chs) ∈ order ∧ ch ∈ chs) ↔
                 ∃ m, (s, m) ∈ l ∧ is_Some (m !! ch)).
    { clear Hp Hfst.
      induction HF as [|[s' m'] [s'' chs'] l order [Ho1 Ho2] _ IH];
        simpl in *.
      - split; [intros (? & ?%elem_of_nil & _) | intros (? & ?%elem_of_nil & _)];
          done.
      - subst s''. split.
        + intros (chs & [[= -> ->]|Hin]%elem_of_cons & Hch).
          * exists m'. split; [apply list_elem_of_here|].
            rewrite Ho2 in Hch.
            apply list_elem_of_fmap in Hch as ([k v] & -> & Hkv).
            apply elem_of_map_to_list in Hkv. eauto.
          * destruct (proj1 IH) as (m & ? & ?); [eauto|].
            exists m. split; [by apply list_elem_of_further|done].
        + intros (m & [[= -> ->]|Hin]%elem_of_cons & [v Hv]).
          * exists chs'. split; [apply list_elem_of_here|].
            rewrite Ho2. apply list_elem_of_fmap. exists (ch, v).
            split; [done|]. by apply elem_of_map_to_list.
          * destruct (proj2 IH) as (chs & ? & ?); [eauto|].
            exists chs. split; [by apply list_elem_of_further|done]. }
    rewrite Hl. split.
    + intros (m & Hin & Hch). exists m. split; [|done].
      rewrite Hp in Hin. by apply elem_of_map_to_list in Hin.
    + intros (m & Hm & Hch). exists m. split; [|done].
      rewrite Hp. by apply elem_of_map_to_list.
Qed.

(** X6: whatever the order in which Go visits the maps, [inverse] lists under
    a sink exactly the keys the sink is held under, each once, and it has an
    entry for a sink exactly when the sink is held under some key. The order
    of [map_to_list] is one such order. *)
Theorem inverse_lists_keys_of_sink cs order :
  range_order cs order →
  (∀ s ch, s ∈ default [] (inverse_over order !! ch) ↔ registered cs s ch) ∧
  (∀ ch, NoDup (default [] (inverse_over order !! ch))) ∧
  (∀ ch, is_Some (inverse_over order !! ch) ↔ ∃ s, registered cs s ch).
Proof.
  intros (l & Hp & HF).
  destruct (range_order_keys _ _ _ Hp HF) as (Hnd & Hnds & Hreg).
  assert (Hlk : ∀ ch, default [] (inverse_over order !! ch)
                      = (filter (λ o : string * list sink, ch ∈ o.2) order).*1).
  { intros ch. unfold inverse_over.
    rewrite inverse_outer_lookup by done. by rewrite lookup_empty. }
  assert (Hmem : ∀ s ch, s ∈ default [] (inverse_over order !! ch)
                         ↔ registered cs s ch).
  { intros s ch. rewrite Hlk.
    assert (registered cs s ch ↔
            ∃ m, default ∅ cs !! s = Some m ∧ is_Some (m !! ch)) as ->.
    { unfold registered. destruct cs as [mp|]; simpl; [done|].
      split; [by intros (? & [=] & _)|].
      intros (? & Hm & _). by rewrite lookup_empty in Hm. }
    rewrite <- Hreg. rewrite list_elem_of_fmap. split.
    - intros ([s' chs] & -> & [Hch Hin]%list_elem_of_filter). eauto.
    - intros (chs & Hin & Hch). exists (s, chs). split; [done|].
      by apply list_elem_of_filter. }
  split; [done|]. split.
  - intros ch. rewrite Hlk.
    eapply sublist_NoDup; [exact Hnd|apply filter_fst_sublist].
  - intros ch. split.
    + intros [ks Hks].
      assert (ks ≠ []) as Hne.
      { eapply (inverse_over_nonempty order ∅); [|exact Hks].
        intros c l'. by rewrite lookup_empty. }
      destruct ks as [|s ks]; [done|]. exists s. apply Hmem.
      rewrite Hks. simpl. apply list_elem_of_here.
    + intros [s Hs%Hmem].
      destruct (inverse_over order !! ch); [eauto|].
      simpl in Hs. by apply elem_of_nil in Hs.
Qed.

Lemma range_order_map_to_list cs :
  range_order cs ((λ e : string * gmap nat bool, (e.1, (map_to_list e.2).*1))
                    <$> map_to_list (default ∅ cs)).
Proof.
  exists (map_to_list (default ∅ cs)). split; [done|].
  induction (map_to_list (default ∅ cs)) as [|e l IH]; simpl;
    constructor; done.
Qed.

Lemma inverse_lists_keys_of_sink_witness :
  let cs : chanSet := Some {["a" := {[1 := true; 2 := true]};
                            "b" := {[2 := true]}]} in
  "b" ∈ default [] (inverse cs !! 2) ∧ NoDup (default [] (inverse cs !! 2)).
Proof.
  intros cs.
  destruct (inverse_lists_keys_of_sink cs _ (range_order_map_to_list cs))
    as (Hmem & Hnd & _).
  split; [|exact (Hnd 2)].
  apply (Hmem "b" 2). exists {[2 := true]}. split; [done|]. by exists true.
Defined.

End RegistryMore.

(** * Further properties of the codec *)

Section CodecMore.
Variable unicode_ToLower : list byte → list byte.
Implicit Types (m : PubSubMessage) (bb : list (list byte)) (br : list RespItem).

(** The outcomes of [unmarshal_elems], by cases on the first element and the
    number of elements. *)
Lemma unmarshal_elems_cases m bb :
  (unmarshal_elems unicode_ToLower m bb = Some (Some too_few, m) ∧
   length bb < 3) ∨
  (∃ b0 tl ty, bb = b0 :: tl ∧ 3 ≤ length bb ∧
     ty = str (ToLower unicode_ToLower b0) ∧
     ((ty = "pmessage" ∧ length bb < 4 ∧
       unmarshal_elems unicode_ToLower m bb
       = Some (Some too_few, set_Type ty m)) ∨
      (ty ≠ "pmessage" ∧ ty ≠ "message" ∧
       unmarshal_elems unicode_ToLower m bb
       = Some (Some (fmt_Errorf "not message or pmessage: %q" ty),
               set_Type ty m)) ∨
      (ty = "message" ∧ ∃ c p rest, tl = c :: p :: rest ∧
       unmarshal_elems unicode_ToLower m bb
       = Some (None, mkPubSubMessage "message" (Pattern m) (str c) p)) ∨
      (ty = "pmessage" ∧ ∃ pat c p rest, tl = pat :: c :: p :: rest ∧
       unmarshal_elems unicode_ToLower m bb
       = Some (None, mkPubSubMessage "pmessage" (str pat) (str c) p)))).
Proof.
  destruct (decide (length bb < 3)) as [Hl|Hl].
  { left. split; [by apply unmarshal_elems_short|done]. }
  right. destruct bb as [|b0 [|x [|y tl]]]; simpl in Hl; try lia.
  exists b0, (x :: y :: tl), (str (ToLower unicode_ToLower b0)).
  split; [done|]. split; [simpl; lia|]. split; [done|].
  destruct (decide (str (ToLower unicode_ToLower b0) = "pmessage")) as [Hp|Hp].
  - destruct tl as [|z tl].
    + left. split; [done|]. split; [simpl; lia|].
      rewrite unmarshal_elems_pmessage_short by done. by rewrite Hp.
    + right. right. right. split; [done|]. exists x, y, z, tl.
      split; [done|]. by apply unmarshal_elems_pmessage.
  - destruct (decide (str (ToLower unicode_ToLower b0) = "message")) as [Hm|Hm].
    + right. right. left. split; [done|]. exists x, y, tl.
      split; [done|]. by apply unmarshal_elems_message.
    + right. left. split; [done|]. split; [done|].
      by apply unmarshal_elems_other.
Qed.

(** X7: [UnmarshalRESP] indexes [bb] only where its length checks allow it,
    so it never panics; and a call that returns an error has left the
    pattern, channel and payload of its receiver as they were. *)
Theorem UnmarshalRESP_never_panics m br :
  ∃ e m' rest,
    UnmarshalRESP unicode_ToLower m br = Some (e, m', rest) ∧
    (e ≠ None →
     Pattern m' = Pattern m ∧ Channel m' = Channel m ∧ Message m' = Message m).
Proof.
  unfold UnmarshalRESP.
  destruct (Any_UnmarshalRESP br) as [e|[bb rest]]; [eauto 10|].
  destruct (unmarshal_elems_cases m bb)
    as [[-> _]|(b0 & tl & ty & -> & _ & _ &
                [(_ & _ & ->)|[(_ & _ & ->)|[(_ & c & p & r & -> & ->)|
                 (_ & pat & c & p & r & -> & ->)]]])];
    simpl; eauto 10.
  - eexists _, _, _. split; [done|]. done.
  - eexists _, _, _. split; [done|]. done.
Qed.

(** X8: a message [UnmarshalRESP] has decoded is of Type "message" or
    "pmessage", the lower-cased first element. Of a "message" frame it takes
    channel and payload from the second and third element and leaves the
    pattern of the receiver as it was; of a "pmessage" frame it takes
    pattern, channel and payload from the second to fourth element. *)
Theorem UnmarshalRESP_success m br m' rest :
  UnmarshalRESP unicode_ToLower m br = Some (None, m', rest) →
  ∃ b0 tl,
    Any_UnmarshalRESP br = inr (b0 :: tl, rest) ∧
    Type_ m' = str (ToLower unicode_ToLower b0) ∧
    ((Type_ m' = "message" ∧ Pattern m' = Pattern m ∧
      Some (Channel m') = str <$> tl !! 0 ∧ Some (Message m') = tl !! 1) ∨
     (Type_ m' = "pmessage" ∧ Some (Pattern m') = str <$> tl !! 0 ∧
      Some (Channel m') = str <$> tl !! 1 ∧ Some (Message m') = tl !! 2)).
Proof.
  unfold UnmarshalRESP.
  destruct (Any_UnmarshalRESP br) as [e|[bb rest']]; [done|].
  destruct (unmarshal_elems_cases m bb)
    as [[-> _]|(b0 & tl & ty & -> & _ & -> &
                [(_ & _ & ->)|[(_ & _ & ->)|[(Ht & c & p & r & -> & ->)|
                 (Ht & pat & c & p & r & -> & ->)]]])];
    simpl; try done.
  - intros [= <- <-]. exists b0, (c :: p :: r). simpl.
    split; [done|]. split; [done|]. left. done.
  - intros [= <- <-]. exists b0, (pat :: c :: p :: r). simpl.
    split; [done|]. split; [done|]. right. done.
Qed.


(** The items [MarshalRESP] writes: their shape goes by Type alone, and the
    pattern of a message of Type "message" is not written. *)
Lemma MarshalRESP_buffer m (w : list RespItem) :
  MarshalRESP m w =
  if decide (Type_ m = "message") then
    (None, w ++ [ArrayHeader 3; BulkString "message"; BulkString (Channel m);
                 BulkStringBytes (Message m)])
  else if decide (Type_ m = "pmessage") then
    (None, w ++ [ArrayHeader 4; BulkString "pmessage"; BulkString (Pattern m);
                 BulkString (Channel m); BulkStringBytes (Message m)])
  else (Some (errors_New "unknown message Type"), w).
Proof.
  unfold MarshalRESP.
  destruct (decide (Type_ m = "message")) as [->|?].
  { cbv [marshal write_item buffer_Writer fst snd]. by rewrite <- !app_assoc. }
  destruct (decide (Type_ m = "pmessage")) as [->|?]; [|done].
  cbv [marshal write_item buffer_Writer fst snd]. by rewrite <- !app_assoc.
Qed.

Lemma Unmarshal_message_frame m0 channel payload rest :
  UnmarshalRESP unicode_ToLower m0
    ([ArrayHeader 3; BulkString "message"; BulkString channel;
      BulkStringBytes payload] ++ rest)
  = Some (None, mkPubSubMessage "message" (Pattern m0) channel payload, rest).
Proof.
  erewrite UnmarshalRESP_elems by reflexivity.
  rewrite unmarshal_elems_message by apply ToLower_message. simpl.
  by rewrite String.string_of_list_byte_of_string.
Qed.

Lemma Unmarshal_pmessage_frame m0 pattern channel payload rest :
  UnmarshalRESP unicode_ToLower m0
    ([ArrayHeader 4; BulkString "pmessage"; BulkString pattern;
      BulkString channel; BulkStringBytes payload] ++ rest)
  = Some (None, mkPubSubMessage "pmessage" pattern channel payload, rest).
Proof.
  erewrite UnmarshalRESP_elems by reflexivity.
  rewrite unmarshal_elems_pmessage by apply ToLower_pmessage. simpl.
  by rewrite !String.string_of_list_byte_of_string.
Qed.

(** One frame in front of a stream: written by [MarshalRESP], read back by
    [UnmarshalRESP], which stops behind it. *)
Lemma Marshal_Unmarshal_frame m (w0 : list RespItem) :
  (Type_ m = "message" ∨ Type_ m = "pmessage") →
  ∃ f, MarshalRESP m w0 = (None, w0 ++ f) ∧
       ∀ m0 rest,
         UnmarshalRESP unicode_ToLower m0 (f ++ rest)
         = Some (None,
                 mkPubSubMessage (Type_ m)
                   (if decide (Type_ m = "pmessage") then Pattern m
                    else Pattern m0)
                   (Channel m) (Message m),
                 rest).
Proof.
  intros [Ht|Ht]; rewrite MarshalRESP_buffer, Ht; simpl;
    eexists; (split; [reflexivity|]); intros m0 rest.
  - apply Unmarshal_message_frame.
  - apply Unmarshal_pmessage_frame.
Qed.

(** X9: what [MarshalRESP] appends to a buffer is one frame, which
    [UnmarshalRESP] reads back and no further: two messages written one
    after the other are read one after the other, each with its Type,
    channel and payload, and with its pattern when it is a "pmessage". The
    pattern of a "message" is not written: the receiver keeps the one it
    had. *)
Theorem Marshal_then_Unmarshal_in_sequence m1 m2 (w0 : list RespItem) m0 :
  (Type_ m1 = "message" ∨ Type_ m1 = "pmessage") →
  (Type_ m2 = "message" ∨ Type_ m2 = "pmessage") →
  ∃ f1 f2 m1' m2',
    MarshalRESP m1 w0 = (None, w0 ++ f1) ∧
    MarshalRESP m2 (w0 ++ f1) = (None, w0 ++ f1 ++ f2) ∧
    UnmarshalRESP unicode_ToLower m0 (f1 ++ f2) = Some (None, m1', f2) ∧
    UnmarshalRESP unicode_ToLower m1' f2 = Some (None, m2', []) ∧
    (Type_ m1' = Type_ m1 ∧ Channel m1' = Channel m1 ∧
     Message m1' = Message m1 ∧
     Pattern m1' = if decide (Type_ m1 = "pmessage") then Pattern m1
                   else Pattern m0) ∧
    (Type_ m2' = Type_ m2 ∧ Channel m2' = Channel m2 ∧
     Message m2' = Message m2 ∧
     Pattern m2' = if decide (Type_ m2 = "pmessage") then Pattern m2
                   else Pattern m1').
Proof.
  intros H1 H2.
  destruct (Marshal_Unmarshal_frame m1 w0 H1) as (f1 & Hw1 & Hr1).
  destruct (Marshal_Unmarshal_frame m2 (w0 ++ f1) H2) as (f2 & Hw2 & Hr2).
  exists f1, f2. eexists _, _.
  split; [exact Hw1|]. split; [by rewrite Hw2, <- app_assoc|].
  split; [apply Hr1|]. split.
  - rewrite <- (app_nil_r f2) at 1. apply Hr2.
  - done.
Qed.

(** X10: a decoded message written out again and decoded once more, into the
    same receiver, is the same message: what [UnmarshalRESP] yields is a
    fixed point of encoding and decoding. *)
Theorem Unmarshal_Marshal_Unmarshal m0 br m rest :
  UnmarshalRESP unicode_ToLower m0 br = Some (None, m, rest) →
  ∃ w, MarshalRESP m ([] : list RespItem) = (None, w) ∧
       UnmarshalRESP unicode_ToLower m0 w = Some (None, m, []).
Proof.
  unfold UnmarshalRESP at 1.
  destruct (Any_UnmarshalRESP br) as [e|[bb rest']]; [done|].
  destruct (unmarshal_elems_cases m0 bb)
    as [[-> _]|(b0 & tl & ty & -> & _ & -> &
                [(_ & _ & ->)|[(_ & _ & ->)|[(Ht & c & p & r & -> & ->)|
                 (Ht & pat & c & p & r & -> & ->)]]])];
    simpl; try done; intros [= <- <-];
    rewrite MarshalRESP_buffer; simpl;
    (eexists; split; [reflexivity|]).
  - apply (Unmarshal_message_frame m0 (str c) p []).
  - apply (Unmarshal_pmessage_frame m0 (str pat) (str c) p []).
Qed.
End CodecMore.

Lemma UnmarshalRESP_never_panics_witness :
  ∃ e m' rest,
    UnmarshalRESP id (mkPubSubMessage "pmessage" "p*" "ch" [])
      [ArrayHeader 3; BulkString "subscribe"; BulkString "x"; BulkString "1"]
    = Some (e, m', rest) ∧ Pattern m' = "p*" ∧ Channel m' = "ch".
Proof.
  destruct (UnmarshalRESP_never_panics id
              (mkPubSubMessage "pmessage" "p*" "ch" [])
              [ArrayHeader 3; BulkString "subscribe"; BulkString "x";
               BulkString "1"]) as (e & m' & rest & H & Hk).
  exists e, m', rest. split; [done|].
  assert (e ≠ None) as He.
  { vm_compute in H. injection H as <- _ _. discriminate. }
  destruct (Hk He) as (? & ? & _). done.
Defined.

Lemma UnmarshalRESP_success_witness :
  ∃ b0 tl,
    Any_UnmarshalRESP [ArrayHeader 3; BulkString "Message"; BulkString "ch";
                       BulkString "hi"] = inr (b0 :: tl, []) ∧
    "message" = str (ToLower id b0).
Proof.
  destruct (UnmarshalRESP_success id (mkPubSubMessage "pmessage" "old" "" [])
              [ArrayHeader 3; BulkString "Message"; BulkString "ch";
               BulkString "hi"]
              (mkPubSubMessage "message" "old" "ch"
                 (String.list_byte_of_string "hi")) [] eq_refl)
    as (b0 & tl & H1 & H2 & _).
  exists b0, tl. split; [exact H1|exact H2].
Defined.

Lemma Marshal_then_Unmarshal_in_sequence_witness :
  let m1 := mkPubSubMessage "pmessage" "p*" "pa" [] in
  let m2 := mkPubSubMessage "message" "" "ch" [] in
  ∃ f1 f2 m1' m2',
    MarshalRESP m1 [] = (None, f1) ∧
    UnmarshalRESP id (mkPubSubMessage "" "" "" []) (f1 ++ f2)
    = Some (None, m1', f2) ∧
    UnmarshalRESP id m1' f2 = Some (None, m2', []) ∧
    Pattern m2' = "p*".
Proof.
  intros m1 m2.
  destruct (Marshal_then_Unmarshal_in_sequence id m1 m2 []
              (mkPubSubMessage "" "" "" []) (or_intror eq_refl)
              (or_introl eq_refl))
    as (f1 & f2 & m1' & m2' & H1 & _ & H3 & H4 & (_ & _ & _ & Hp1)
        & (_ & _ & _ & Hp2)).
  exists f1, f2, m1', m2'. split; [exact H1|]. split; [exact H3|].
  split; [exact H4|]. rewrite Hp2, Hp1. reflexivity.
Defined.

Lemma Unmarshal_Marshal_Unmarshal_witness :
  ∃ w, MarshalRESP (mkPubSubMessage "message" "" "ch"
                      (String.list_byte_of_string "hi")) ([] : list RespItem)
       = (None, w) ∧
       UnmarshalRESP id (mkPubSubMessage "" "" "" []) w
       = Some (None, mkPubSubMessage "message" "" "ch"
                       (String.list_byte_of_string "hi"), []).
Proof.
  exact (Unmarshal_Marshal_Unmarshal id (mkPubSubMessage "" "" "" [])
           [ArrayHeader 4; BulkString "MESSAGE"; BulkString "ch";
            BulkString "hi"; BulkString "extra"] _ [] eq_refl).
Defined.

(** * Further properties of the connection *)

Section FacadeMore.
Implicit Types (c : pubSubConn) (env : wire_env) (msgCh ch : sink)
  (channels : list string) (cs : chanSet) (key : string).

Lemma do_wait_nil_acks k n ev c :
  cmdResCh c = Some [] →
  do_wait (k + n) (replicate k (Got None) ++ ev) c = do_wait n ev c.
Proof.
  intros Hc. induction k as [|k IH]; simpl; [done|].
  unfold recvCmdRes. by rewrite Hc.
Qed.

(** X11: on a connection whose [cmdResCh] is open and empty, [do] hands the
    command to [conn.Encode] and returns the error of [Encode] at once when
    there is one; otherwise it returns nil once [exp] nil replies have
    arrived, returns the first error that arrives before that, "connection
    closed" when the channel is closed before that, and waits for ever when
    fewer than [exp] replies arrive. *)
Theorem do_waits_for_replies env exp cmd args c :
  cmdResCh c = Some [] →
  (∀ e, encode_err env = Some e →
     do env exp cmd args c
     = (Returns (Some e), set_conn (Encode (mkCmd cmd args) (conn c)) c)) ∧
  (encode_err env = None →
     (∀ rest, acks env = replicate exp (Got None) ++ rest →
        do env exp cmd args c
        = (Returns None, set_conn (Encode (mkCmd cmd args) (conn c)) c)) ∧
     (∀ k e rest, k < exp →
        acks env = replicate k (Got None) ++ Got (Some e) :: rest →
        do env exp cmd args c
        = (Returns (Some e), set_conn (Encode (mkCmd cmd args) (conn c)) c)) ∧
     (∀ k rest, k < exp →
        acks env = replicate k (Got None) ++ ChClosed :: rest →
        do env exp cmd args c
        = (Returns (Some connection_closed),
           set_conn (Encode (mkCmd cmd args) (conn c)) c)) ∧
     (∀ k, k < exp → acks env = replicate k (Got None) →
        do env exp cmd args c
        = (Blocks, set_conn (Encode (mkCmd cmd args) (conn c)) c))).
Proof.
  intros Hc. unfold do. split; [by intros e ->|]. intros ->.
  set (c' := set_conn _ c).
  assert (Hc' : cmdResCh c' = Some []) by done.
  split; [|split; [|split]].
  - intros rest ->. replace exp with (exp + 0) at 1 by lia.
    by rewrite do_wait_nil_acks.
  - intros k e rest Hk ->. replace exp with (k + S (exp - S k)) by lia.
    rewrite do_wait_nil_acks by done. simpl. unfold recvCmdRes.
    by rewrite Hc'.
  - intros k rest Hk ->. replace exp with (k + S (exp - S k)) by lia.
    rewrite do_wait_nil_acks by done. simpl. unfold recvCmdRes.
    by rewrite Hc'.
  - intros k Hk ->. replace exp with (k + S (exp - S k)) by lia.
    rewrite <- (app_nil_r (replicate k (Got None))).
    rewrite do_wait_nil_acks by done. simpl. unfold recvCmdRes.
    by rewrite Hc'.
Qed.

Lemma do_waits_for_replies_witness :
  let c := newPubSub None in
  do (mkWireEnv None [Got None; Got None]) 3 "SUBSCRIBE" ["a"; "b"; "c"] c
  = (Blocks, set_conn (Encode (mkCmd "SUBSCRIBE" ["a"; "b"; "c"]) (conn c)) c).
Proof.
  intros c.
  refine (proj2 (proj2 (proj2 (proj2
            (do_waits_for_replies (mkWireEnv None [Got None; Got None]) 3
               "SUBSCRIBE" ["a"; "b"; "c"] c eq_refl) eq_refl))) 2 _ eq_refl).
  lia.
Defined.


Lemma no_other_sink_del cs msgCh s key :
  no_other_sink (del s msgCh cs).2 msgCh key ↔ no_other_sink cs msgCh key.
Proof.
  rewrite !no_other_sink_iff. split; intros H ch Hr.
  - destruct (decide (ch = msgCh)) as [|Hne]; [done|].
    apply H, del_registered. split; [done|]. by intros [_ ?].
  - apply del_registered in Hr as [Hr _]. by apply H.
Qed.

(** The loop of [Unsubscribe]: the pairs it takes away and the keys it
    collects. *)
Lemma del_each_spec msgCh channels cs acc :
  (del_each msgCh channels cs acc).2
  = acc ++ filter (no_other_sink cs msgCh) channels ∧
  ∀ key ch, registered (del_each msgCh channels cs acc).1 key ch ↔
            registered cs key ch ∧ ¬ (key ∈ channels ∧ ch = msgCh).
Proof.
  revert cs acc. induction channels as [|s rest IH]; intros cs acc; simpl.
  - rewrite app_nil_r. split; [done|]. intros key ch.
    rewrite elem_of_nil. tauto.
  - pose proof (del_true_iff_no_other_sink s msgCh cs) as Hb.
    pose proof (del_registered s msgCh cs) as Hr.
    pose proof (no_other_sink_del cs msgCh s) as Hn.
    destruct (del s msgCh cs) as [b cs1]. simpl in *.
    destruct (IH cs1 (if b then acc ++ [s] else acc)) as [IH1 IH2].
    split.
    + rewrite IH1. rewrite (list_filter_iff _ _ rest (Hn)).
      destruct b.
      * rewrite filter_cons_True by (by apply Hb).
        by rewrite <- app_assoc.
      * rewrite filter_cons_False; [done|].
        intros Hs%Hb. done.
    + intros key ch. rewrite IH2, Hr, elem_of_cons.
      split; [intros ((? & Hn1) & Hn2)|intros (? & Hn1)].
      * split; [done|]. intros [[->|?] ->]; [by apply Hn1|by apply Hn2].
      * split; [split; [done|]|].
        { intros [-> ->]. apply Hn1. eauto. }
        intros [? ->]. apply Hn1. eauto.
Qed.

Lemma do_wait_set_subs x exp ev c :
  do_wait exp ev (set_subs x c)
  = ((do_wait exp ev c).1, set_subs x (do_wait exp ev c).2).
Proof.
  revert ev c. induction exp as [|exp IH]; intros ev c; simpl; [done|].
  unfold recvCmdRes. simpl.
  destruct (cmdResCh c) as [[|[e|] buf]|]; simpl; try done.
  - destruct ev as [|[[e|]|] ev]; simpl; try done; apply IH.
  - apply (IH ev (set_cmdResCh (Some buf) c)).
Qed.

Lemma do_set_subs x env exp cmd args c :
  do env exp cmd args (set_subs x c)
  = ((do env exp cmd args c).1, set_subs x (do env exp cmd args c).2).
Proof.
  unfold do. simpl. destruct (encode_err env); [done|].
  apply (do_wait_set_subs x exp (acks env)
           (set_conn (Encode (mkCmd cmd args) (conn c)) c)).
Qed.

(** X12: [Unsubscribe] takes the sink away from every key it is given and
    from no other, whether or not the wire command then succeeds, and leaves
    the pattern registry alone. It issues no command when every key still
    has another sink; otherwise one UNSUBSCRIBE, naming in order the keys
    given that have no other sink, and it waits for one reply per key
    named. *)
Theorem Unsubscribe_unregisters env msgCh channels c :
  (∀ key ch, registered (subs (Unsubscribe env msgCh channels c).2) key ch ↔
             registered (subs c) key ch ∧ ¬ (key ∈ channels ∧ ch = msgCh)) ∧
  psubs (Unsubscribe env msgCh channels c).2 = psubs c ∧
  (filter (no_other_sink (subs c) msgCh) channels = [] →
     (Unsubscribe env msgCh channels c).1 = Returns None ∧
     conn (Unsubscribe env msgCh channels c).2 = conn c) ∧
  (filter (no_other_sink (subs c) msgCh) channels ≠ [] →
     issued c (Unsubscribe env msgCh channels c).2
     = [mkCmd "UNSUBSCRIBE" (filter (no_other_sink (subs c) msgCh) channels)] ∧
     (Unsubscribe env msgCh channels c).1
     = (do env (length (filter (no_other_sink (subs c) msgCh) channels))
          "UNSUBSCRIBE" (filter (no_other_sink (subs c) msgCh) channels) c).1).
Proof.
  unfold Unsubscribe, unsubscribe_with.
  destruct (del_each_spec msgCh channels (subs c) []) as [He Hr].
  destruct (del_each msgCh channels (subs c) []) as [cs empties].
  simpl in He, Hr. subst empties.
  set (empties := filter (no_other_sink (subs c) msgCh) channels).
  destruct (decide (length empties = 0)) as [Hl|Hl].
  - assert (empties = []) as -> by (by destruct empties).
    simpl. split; [apply Hr|]. split; [done|]. split; [done|]. by intros ?.
  - rewrite do_set_subs.
    destruct (do_frame env (length empties) "UNSUBSCRIBE" empties c)
      as (Henc & _ & Hp & _).
    simpl. split; [done|]. split; [done|]. split.
    + intros ->. done.
    + intros _. split; [|done]. by apply issued_app.
Qed.

Lemma Unsubscribe_unregisters_witness :
  let c := set_subs (Some {["a" := {[1 := true; 2 := true]};
                            "b" := {[2 := true]}]}) (newPubSub None) in
  let env := mkWireEnv (Some (foreign_error "broken pipe")) [] in
  issued c (Unsubscribe env 2 ["a"; "b"; "z"] c).2
  = [mkCmd "UNSUBSCRIBE" ["b"; "z"]] ∧
  (Unsubscribe (mkWireEnv None []) 2 ["a"] c).1 = Returns None.
Proof.
  intros c env. split.
  - refine (proj1 (proj2 (proj2 (proj2
              (Unsubscribe_unregisters env 2 ["a"; "b"; "z"] c))) _)).
    vm_compute. discriminate.
  - refine (proj1 (proj1 (proj2 (proj2
              (Unsubscribe_unregisters (mkWireEnv None []) 2 ["a"] c))) _)).
    vm_compute. reflexivity.
Defined.


(** The state a [subscribe_with] ends in, apart from the registry it adds
    to, is the state [do] has left, or the state it started in when no
    command was needed. *)
Lemma subscribe_with_result get set cmd env msgCh channels c :
  let ms := absent_keys (get c) channels in
  let r := if decide (0 < length ms)
           then do env (length ms) cmd ms c else (Returns None, c) in
  (subscribe_with get set cmd env msgCh channels c = r ∧
   r.1 ≠ Returns None) ∨
  (r.1 = Returns None ∧
   ((∃ cs, add_each msgCh (ms ++ drop (length ms) channels) (get r.2) = Some cs ∧
           subscribe_with get set cmd env msgCh channels c
           = (Returns None, set cs r.2)) ∨
    (add_each msgCh (ms ++ drop (length ms) channels) (get r.2) = None ∧
     subscribe_with get set cmd env msgCh channels c = (Panics, r.2)))).
Proof.
  intros ms r. rewrite subscribe_with_unfold. cbv zeta.
  change (absent_keys (get c) channels) with ms.
  change (if decide (0 < length ms)
          then do env (length ms) cmd ms c else (Returns None, c)) with r.
  clearbody r. destruct r as [[[e|]| |] c1]; simpl; try (left; done).
  right. split; [done|].
  destruct (add_each msgCh _ (get c1)) as [cs|]; eauto.
Qed.

(** X13: the two registries are apart and a [Subscribe] is all or nothing.
    [Subscribe] never changes the pattern registry nor [PSubscribe] the
    literal one, and a call that does not return nil (its wire command
    failed, or its replies never came) has changed neither. *)
Theorem Subscribe_all_or_nothing env msgCh channels c :
  psubs (Subscribe env msgCh channels c).2 = psubs c ∧
  subs (PSubscribe env msgCh channels c).2 = subs c ∧
  ((Subscribe env msgCh channels c).1 ≠ Returns None →
   subs (Subscribe env msgCh channels c).2 = subs c) ∧
  ((PSubscribe env msgCh channels c).1 ≠ Returns None →
   psubs (PSubscribe env msgCh channels c).2 = psubs c).
Proof.
  unfold Subscribe, PSubscribe.
  pose proof (subscribe_with_result subs set_subs "SUBSCRIBE" env msgCh
                channels c) as HS.
  pose proof (subscribe_with_result psubs set_psubs "PSUBSCRIBE" env msgCh
                channels c) as HP.
  simpl in HS, HP.
  assert (Hf : ∀ cmd ms,
    let r := if decide (0 < length ms)
             then do env (length ms) cmd ms c else (Returns None, c) in
    subs r.2 = subs c ∧ psubs r.2 = psubs c).
  { intros cmd ms. destruct (decide (0 < length ms)); simpl; [|done].
    destruct (do_frame env (length ms) cmd ms c) as (_ & ? & ? & _). done. }
  destruct (Hf "SUBSCRIBE" (absent_keys (subs c) channels)) as [HS1 HS2].
  destruct (Hf "PSUBSCRIBE" (absent_keys (psubs c) channels)) as [HP1 HP2].
  clear Hf.
  repeat split.
  - destruct HS as [[-> _]|[_ [(cs & _ & ->)|[_ ->]]]]; simpl; done.
  - destruct HP as [[-> _]|[_ [(cs & _ & ->)|[_ ->]]]]; simpl; done.
  - destruct HS as [[-> _]|[_ [(cs & _ & ->)|[_ ->]]]]; simpl; done.
  - destruct HP as [[-> _]|[_ [(cs & _ & ->)|[_ ->]]]]; simpl; done.
Qed.

Lemma Subscribe_all_or_nothing_witness :
  let c := set_subs (Some {["a" := {[1 := true]}]}) (newPubSub None) in
  subs (Subscribe (mkWireEnv None [Got None]) 2 ["b"; "c"] c).2 = subs c.
Proof.
  intros c.
  refine (proj1 (proj2 (proj2
            (Subscribe_all_or_nothing (mkWireEnv None [Got None]) 2
               ["b"; "c"] c))) _).
  vm_compute. discriminate.
Defined.

Lemma absent_keys_all cs channels :
  Forall (λ k, ¬ present cs k) channels → absent_keys cs channels = channels.
Proof.
  unfold absent_keys. induction 1 as [|k l Hk _ IH]; [done|].
  rewrite filter_cons_True by done. by rewrite IH.
Qed.

Lemma absent_keys_none cs channels :
  Forall (present cs) channels → absent_keys cs channels = [].
Proof.
  unfold absent_keys. induction 1 as [|k l Hk _ IH]; [done|].
  rewrite filter_cons_False by (by intros Hn). done.
Qed.

(** X14: when the keys asked for are all new to the registry, or all in it
    already, a [Subscribe] that returns nil has added the sink under every
    one of them and has changed nothing else. *)
Theorem Subscribe_registers_all env msgCh channels c :
  (Subscribe env msgCh channels c).1 = Returns None →
  Forall (λ k, ¬ present (subs c) k) channels ∨
  Forall (present (subs c)) channels →
  ∀ key ch, registered (subs (Subscribe env msgCh channels c).2) key ch ↔
            (key ∈ channels ∧ ch = msgCh) ∨ registered (subs c) key ch.
Proof.
  intros Hret Hk key ch. rewrite (Subscribe_registers _ _ _ _ _ _ Hret).
  destruct Hk as [Hk|Hk].
  - rewrite (absent_keys_all _ _ Hk), drop_all, app_nil_r. done.
  - rewrite (absent_keys_none _ _ Hk). simpl. by rewrite drop_0.
Qed.

Lemma Subscribe_registers_all_witness :
  let c := set_subs (Some {["a" := {[1 := true]}]}) (newPubSub None) in
  let env := mkWireEnv None [Got None; Got None] in
  registered (subs (Subscribe env 2 ["b"; "c"] c).2) "c" 2.
Proof.
  intros c env.
  refine (proj2 (Subscribe_registers_all env 2 ["b"; "c"] c eq_refl _ "c" 2) _).
  - left. repeat constructor; by intros [? [=]].
  - left. split; [|done]. apply list_elem_of_further, list_elem_of_here.
Defined.


Lemma Unsubscribe_registered env msgCh channels c key ch :
  registered (subs (Unsubscribe env msgCh channels c).2) key ch ↔
  registered (subs c) key ch ∧ ¬ (key ∈ channels ∧ ch = msgCh).
Proof.
  unfold Unsubscribe, unsubscribe_with.
  destruct (del_each_spec msgCh channels (subs c) []) as [_ Hr].
  destruct (del_each msgCh channels (subs c) []) as [cs empties].
  simpl in Hr. destruct (decide (length empties = 0)); [apply Hr|].
  rewrite do_set_subs. simpl. apply Hr.
Qed.

Lemma Unsubscribe_encoded_keys env msgCh channels c :
  encoded (conn (Unsubscribe env msgCh channels c).2)
  = encoded (conn c) ++
    (if decide (filter (no_other_sink (subs c) msgCh) channels = []) then []
     else [mkCmd "UNSUBSCRIBE"
             (filter (no_other_sink (subs c) msgCh) channels)]).
Proof.
  unfold Unsubscribe, unsubscribe_with.
  destruct (del_each_spec msgCh channels (subs c) []) as [He _].
  destruct (del_each msgCh channels (subs c) []) as [cs empties].
  simpl in He. subst empties.
  set (empties := filter (no_other_sink (subs c) msgCh) channels).
  destruct (decide (length empties = 0)) as [Hl|Hl].
  - rewrite decide_True by (by destruct empties). simpl.
    by rewrite app_nil_r.
  - rewrite decide_False by (by intros ->).
    rewrite do_set_subs. simpl.
    by destruct (do_frame env (length empties) "UNSUBSCRIBE" empties c)
      as (-> & _).
Qed.

Lemma filter_Forall_id {A} (P : A → Prop) `{∀ x, Decision (P x)} (l : list A) :
  Forall P l → filter P l = l.
Proof.
  induction 1 as [|x l Hx _ IH]; [done|].
  rewrite filter_cons_True by done. by rewrite IH.
Qed.

(** X15: a sink that subscribes to keys that are new to the registry and
    then unsubscribes from them leaves the registry holding what it held
    before, and the connection has been handed one SUBSCRIBE and then one
    UNSUBSCRIBE, each naming the keys as they were given. *)
Theorem Subscribe_Unsubscribe_roundtrip env1 env2 msgCh channels c :
  channels ≠ [] →
  Forall (λ k, ¬ present (subs c) k) channels →
  (Subscribe env1 msgCh channels c).1 = Returns None →
  (∀ key ch,
     registered
       (subs (Unsubscribe env2 msgCh channels
                (Subscribe env1 msgCh channels c).2).2) key ch ↔
     registered (subs c) key ch) ∧
  issued c (Unsubscribe env2 msgCh channels
              (Subscribe env1 msgCh channels c).2).2
  = [mkCmd "SUBSCRIBE" channels; mkCmd "UNSUBSCRIBE" channels].
Proof.
  intros Hne Hnew Hret.
  assert (Hreg : ∀ key ch,
    registered (subs (Subscribe env1 msgCh channels c).2) key ch ↔
    (key ∈ channels ∧ ch = msgCh) ∨ registered (subs c) key ch).
  { intros key ch. rewrite (Subscribe_registers _ _ _ _ _ _ Hret).
    by rewrite (absent_keys_all _ _ Hnew), drop_all, app_nil_r. }
  assert (Hnr : ∀ key ch, key ∈ channels → ¬ registered (subs c) key ch).
  { intros key ch Hin (m & Hm & _).
    rewrite Forall_forall in Hnew. apply (Hnew key Hin). by exists m. }
  split.
  - intros key ch. rewrite Unsubscribe_registered, Hreg. split.
    + intros [[[? ?]|?] Hn]; [by destruct Hn|done].
    + intros Hr. split; [by right|]. intros [Hin _]. by apply (Hnr key ch).
  - apply issued_app.
    rewrite Unsubscribe_encoded_keys, Subscribe_encoded.
    rewrite (absent_keys_all _ _ Hnew).
    rewrite decide_False by done.
    assert (filter (no_other_sink (subs (Subscribe env1 msgCh channels c).2)
                      msgCh) channels = channels) as ->.
    { apply filter_Forall_id, Forall_forall. intros k Hin.
      apply no_other_sink_iff. intros ch [[_ ?]|Hr]%Hreg; [done|].
      by destruct (Hnr k ch). }
    rewrite decide_False by done. by rewrite <- app_assoc.
Qed.

Lemma Subscribe_Unsubscribe_roundtrip_witness :
  let c := set_subs (Some {["a" := {[1 := true]}]}) (newPubSub None) in
  let ok := mkWireEnv None [Got None; Got None] in
  issued c (Unsubscribe ok 2 ["b"; "c"] (Subscribe ok 2 ["b"; "c"] c).2).2
  = [mkCmd "SUBSCRIBE" ["b"; "c"]; mkCmd "UNSUBSCRIBE" ["b"; "c"]].
Proof.
  intros c ok.
  refine (proj2 (Subscribe_Unsubscribe_roundtrip ok ok 2 ["b"; "c"] c _ _ _)).
  - discriminate.
  - repeat constructor; by intros [? [=]].
  - reflexivity.
Defined.

End FacadeMore.

(** * What holds of every connection *)

Section ConnInvariant.
Implicit Types (c : pubSubConn) (env : wire_env) (msgCh ch : sink)
  (channels : list string) (cs : chanSet) (key : string).

Lemma same_lifecycle_refl c : same_lifecycle c c.
Proof. by repeat split. Qed.

Lemma same_lifecycle_set_subs x c : same_lifecycle c (set_subs x c).
Proof. unfold same_lifecycle. simpl. tauto. Qed.

Lemma same_lifecycle_set_psubs x c : same_lifecycle c (set_psubs x c).
Proof. unfold same_lifecycle. simpl. tauto. Qed.

Lemma same_lifecycle_trans c1 c2 c3 :
  same_lifecycle c1 c2 → same_lifecycle c2 c3 → same_lifecycle c1 c3.
Proof.
  intros (? & ? & ? & ? & ?) (? & ? & ? & ? & ?).
  repeat split; try congruence; tauto.
Qed.

Lemma do_wait_lifecycle exp ev c :
  same_lifecycle c (do_wait exp ev c).2 ∧ (do_wait exp ev c).1 ≠ Panics.
Proof.
  revert ev c. induction exp as [|exp IH]; intros ev c; simpl.
  { split; [apply same_lifecycle_refl|done]. }
  unfold recvCmdRes.
  destruct (cmdResCh c) as [[|[e|] buf]|] eqn:E; simpl.
  - destruct ev as [|[[e|]|] ev]; simpl;
      try (split; [apply same_lifecycle_refl|done]). apply IH.
  - split; [|done]. repeat split; simpl; congruence.
  - destruct (IH ev (set_cmdResCh (Some buf) c)) as [Hl Hp].
    split; [|done]. eapply same_lifecycle_trans; [|exact Hl].
    repeat split; simpl; congruence.
  - split; [apply same_lifecycle_refl|done].
Qed.

Lemma do_lifecycle env exp cmd args c :
  same_lifecycle c (do env exp cmd args c).2 ∧
  (do env exp cmd args c).1 ≠ Panics.
Proof.
  unfold do. destruct (encode_err env); simpl.
  { split; [by repeat split|done]. }
  destruct (do_wait_lifecycle exp (acks env)
              (set_conn (Encode (mkCmd cmd args) (conn c)) c)) as [Hl Hp].
  split; [|done]. eapply same_lifecycle_trans; [|exact Hl]. by repeat split.
Qed.

Lemma add_each_sets_nonempty msgCh channels cs cs' :
  add_each msgCh channels cs = Some cs' →
  sets_nonempty cs → sets_nonempty cs'.
Proof.
  revert cs. induction channels as [|s rest IH]; intros cs; simpl.
  - by intros [= <-].
  - destruct (add s msgCh cs) as [cs1|] eqn:E; simpl; [|done].
    intros H Hinv. apply (IH _ H). by apply (add_sets_nonempty cs s msgCh).
Qed.

Lemma add_each_is_Some msgCh channels cs cs' :
  add_each msgCh channels cs = Some cs' → (cs' = None ↔ cs = None).
Proof.
  destruct cs as [mp|].
  - destruct (add_each_not_nil msgCh channels mp) as [mp' ->].
    by intros [= <-].
  - rewrite add_each_nil. destruct channels; [|done]. by intros [= <-].
Qed.

Lemma del_each_sets_nonempty msgCh channels cs acc :
  sets_nonempty cs → sets_nonempty (del_each msgCh channels cs acc).1.
Proof.
  revert cs acc. induction channels as [|s rest IH]; intros cs acc Hinv;
    simpl; [done|].
  pose proof (del_sets_nonempty cs s msgCh Hinv) as H.
  destruct (del s msgCh cs) as [b cs1]. by apply IH.
Qed.

Lemma del_is_Some s msgCh cs : (del s msgCh cs).2 = None ↔ cs = None.
Proof.
  pose proof (del_cases cs s msgCh) as H.
  destruct (cs_lookup cs s) as [m|] eqn:E.
  - apply cs_lookup_Some in E as (mp & -> & _).
    destruct (decide (delete msgCh m = ∅)); rewrite H; done.
  - by rewrite H.
Qed.

Lemma del_each_is_Some msgCh channels cs acc :
  (del_each msgCh channels cs acc).1 = None ↔ cs = None.
Proof.
  revert cs acc. induction channels as [|s rest IH]; intros cs acc; simpl;
    [done|].
  pose proof (del_is_Some s msgCh cs) as H.
  destruct (del s msgCh cs) as [b cs1]. simpl in H. by rewrite IH.
Qed.

Lemma conn_ok_transfer c c' :
  same_lifecycle c c' →
  (subs c' = None ↔ subs c = None) → (psubs c' = None ↔ psubs c = None) →
  conn_ok c → conn_ok c'.
Proof.
  intros (H1 & H2 & H3 & H4 & H5) Hs Hp.
  unfold conn_ok, closed.
  rewrite H1, H2, H4, Hs, Hp, H5.
  rewrite <- !not_eq_None_Some, Hs, Hp, H5. done.
Qed.


Lemma sets_nonempty_nil : sets_nonempty None.
Proof. by intros s m. Qed.

Lemma conn_ok_nil_closed c :
  conn_ok c → subs c = None ∨ psubs c = None → cmdResCh c = None.
Proof.
  intros [(_ & [? Hs] & [? Hp] & _)|((_ & _ & _ & Hc) & _)] [Hn|Hn];
    congruence.
Qed.

(** Where a [subscribe_with] ends: in the state [do] has left, or in that
    state with the sink added to the registry; and it panics only when the
    registry is nil while [cmdResCh] is not. *)
Lemma subscribe_with_ok get set cmd env msgCh channels c :
  (∀ env exp cmd args, get (do env exp cmd args c).2 = get c) →
  ∃ c1, same_lifecycle c c1 ∧ subs c1 = subs c ∧ psubs c1 = psubs c ∧
        ((subscribe_with get set cmd env msgCh channels c).2 = c1 ∨
         ∃ l cs, add_each msgCh l (get c) = Some cs ∧
                 (subscribe_with get set cmd env msgCh channels c).2
                 = set cs c1) ∧
        ((get c = None → cmdResCh c = None) →
         (subscribe_with get set cmd env msgCh channels c).1 ≠ Panics).
Proof.
  intros Hget.
  pose proof (subscribe_with_result get set cmd env msgCh channels c) as H.
  simpl in H.
  set (ms := absent_keys (get c) channels) in *.
  set (r := if decide (0 < length ms)
            then do env (length ms) cmd ms c else (Returns None, c)) in *.
  assert (Hr : same_lifecycle c r.2 ∧ subs r.2 = subs c ∧ psubs r.2 = psubs c ∧
               get r.2 = get c ∧ r.1 ≠ Panics).
  { unfold r. destruct (decide (0 < length ms)); simpl.
    - destruct (do_lifecycle env (length ms) cmd ms c) as [? ?].
      destruct (do_frame env (length ms) cmd ms c) as (_ & ? & ? & _).
      by rewrite Hget.
    - split; [apply same_lifecycle_refl|done]. }
  destruct Hr as (Hl & Hs & Hp & Hg & Hnp).
  exists r.2. split; [done|]. split; [done|]. split; [done|].
  destruct H as [[-> Hst]|[Hst [(cs & Ha & ->)|[Ha ->]]]]; simpl.
  - split; [by left|]. done.
  - split; [|done]. right. rewrite Hg in Ha. eauto.
  - split; [by left|]. intros Hclosed _.
    rewrite Hg in Ha. destruct (get c) as [mp|] eqn:E.
    { destruct (add_each_not_nil msgCh (ms ++ drop (length ms) channels) mp)
        as [? Hx]. congruence. }
    specialize (Hclosed eq_refl).
    assert (ms = channels) as Hms.
    { unfold ms. apply absent_keys_all, Forall_forall.
      intros k _ [? [=]]. }
    rewrite Hms, drop_all, app_nil_r, add_each_nil in Ha.
    destruct channels as [|k l]; [done|].
    unfold r in Hst. rewrite Hms in Hst. simpl in Hst.
    destruct (do_closed env (S (length l)) cmd (k :: l) c Hclosed)
      as (e & He & _); [lia|].
    rewrite He in Hst. done.
Qed.

Lemma unsubscribe_with_ok get set cmd env msgCh channels c :
  ∃ c1, same_lifecycle (set (del_each msgCh channels (get c) []).1 c) c1 ∧
        subs c1 = subs (set (del_each msgCh channels (get c) []).1 c) ∧
        psubs c1 = psubs (set (del_each msgCh channels (get c) []).1 c) ∧
        (unsubscribe_with get set cmd env msgCh channels c).2 = c1 ∧
        (unsubscribe_with get set cmd env msgCh channels c).1 ≠ Panics.
Proof.
  unfold unsubscribe_with.
  destruct (del_each msgCh channels (get c) []) as [cs empties]. simpl.
  destruct (decide (length empties = 0)); simpl.
  - eexists. split; [apply same_lifecycle_refl|]. done.
  - destruct (do_lifecycle env (length empties) cmd empties (set cs c))
      as [? ?].
    destruct (do_frame env (length empties) cmd empties (set cs c))
      as (_ & ? & ? & _).
    eexists. split; [eassumption|]. done.
Qed.

Lemma conn_inv_transfer c c' :
  same_lifecycle c c' →
  (subs c' = None ↔ subs c = None) → (psubs c' = None ↔ psubs c = None) →
  sets_nonempty (subs c') → sets_nonempty (psubs c') →
  conn_inv c → conn_inv c'.
Proof.
  intros Hl Hs Hp Hs' Hp' (Hok & Ho & _ & _).
  split; [by apply (conn_ok_transfer c)|]. split; [|done].
  destruct Hl as (_ & _ & _ & -> & _). exact Ho.
Qed.

Lemma Subscribe_inv env msgCh channels c :
  conn_inv c →
  conn_inv (Subscribe env msgCh channels c).2 ∧
  (Subscribe env msgCh channels c).1 ≠ Panics.
Proof.
  intros Hinv. pose proof Hinv as (Hok & Ho & Hs & Hp). unfold Subscribe.
  destruct (subscribe_with_ok subs set_subs "SUBSCRIBE" env msgCh channels c)
    as (c1 & Hl & Hs1 & Hp1 & Hres & Hnp).
  { intros. by destruct (do_frame env0 exp cmd args c) as (_ & ? & _). }
  split; [|apply Hnp; intros ?; apply (conn_ok_nil_closed c); auto].
  destruct Hres as [->|(l & cs & Ha & ->)].
  - apply (conn_inv_transfer c); rewrite ?Hs1, ?Hp1; done.
  - apply (conn_inv_transfer c); simpl; rewrite ?Hp1; try done.
    + by apply add_each_is_Some in Ha.
    + by apply (add_each_sets_nonempty _ _ _ _ Ha).
Qed.

Lemma PSubscribe_inv env msgCh channels c :
  conn_inv c →
  conn_inv (PSubscribe env msgCh channels c).2 ∧
  (PSubscribe env msgCh channels c).1 ≠ Panics.
Proof.
  intros Hinv. pose proof Hinv as (Hok & Ho & Hs & Hp). unfold PSubscribe.
  destruct (subscribe_with_ok psubs set_psubs "PSUBSCRIBE" env msgCh channels c)
    as (c1 & Hl & Hs1 & Hp1 & Hres & Hnp).
  { intros. by destruct (do_frame env0 exp cmd args c) as (_ & _ & ? & _). }
  split; [|apply Hnp; intros ?; apply (conn_ok_nil_closed c); auto].
  destruct Hres as [->|(l & cs & Ha & ->)].
  - apply (conn_inv_transfer c); rewrite ?Hs1, ?Hp1; done.
  - apply (conn_inv_transfer c); simpl; rewrite ?Hs1; try done.
    + by apply add_each_is_Some in Ha.
    + by apply (add_each_sets_nonempty _ _ _ _ Ha).
Qed.

Lemma Unsubscribe_inv env msgCh channels c :
  conn_inv c →
  conn_inv (Unsubscribe env msgCh channels c).2 ∧
  (Unsubscribe env msgCh channels c).1 ≠ Panics.
Proof.
  intros Hinv. pose proof Hinv as (Hok & Ho & Hs & Hp). unfold Unsubscribe.
  destruct (unsubscribe_with_ok subs set_subs "UNSUBSCRIBE" env msgCh
              channels c) as (c1 & Hl & Hs1 & Hp1 & -> & Hnp).
  split; [|done]. simpl in *.
  apply (conn_inv_transfer c); rewrite ?Hs1, ?Hp1; try done.
  - apply del_each_is_Some.
  - by apply del_each_sets_nonempty.
Qed.

Lemma PUnsubscribe_inv env msgCh channels c :
  conn_inv c →
  conn_inv (PUnsubscribe env msgCh channels c).2 ∧
  (PUnsubscribe env msgCh channels c).1 ≠ Panics.
Proof.
  intros Hinv. pose proof Hinv as (Hok & Ho & Hs & Hp). unfold PUnsubscribe.
  destruct (unsubscribe_with_ok psubs set_psubs "PUNSUBSCRIBE" env msgCh
              channels c) as (c1 & Hl & Hs1 & Hp1 & -> & Hnp).
  split; [|done]. simpl in *.
  apply (conn_inv_transfer c); rewrite ?Hs1, ?Hp1; try done.
  - apply del_each_is_Some.
  - by apply del_each_sets_nonempty.
Qed.

(** Without observer [closeInner] makes no send on [closeErrCh], and its one
    send on [cmdResCh] is that of [sendCmdResNb], which does not wait. *)
Lemma closeInner_inv close_res cause c :
  conn_inv c →
  conn_inv (closeInner close_res cause c).2 ∧
  (close_done c = false → closed (closeInner close_res cause c).2).
Proof.
  intros (Hok & Ho & Hs & Hp). unfold closeInner.
  destruct (close_done c) eqn:Hd; simpl; [done|].
  destruct Hok as [(_ & _ & _ & _ & Hc)|((Hd' & _) & _)]; [|congruence].
  destruct c as [[enc n] s p chn d ce cec]. simpl in *. subst n cec.
  unfold conn_inv, conn_ok, closed, sendCmdResNb.
  destruct cause as [e|]; destruct chn as [buf|]; simpl;
    repeat case_decide; simpl;
    (split; [|done]);
    (split; [right; done|split; [done|split; apply sets_nonempty_nil]]).
Qed.

Lemma UnmarshalRESP_is_Some u m br : is_Some (UnmarshalRESP u m br).
Proof.
  unfold UnmarshalRESP.
  destruct (Any_UnmarshalRESP br) as [e|[bb rest]]; [done|].
  destruct (unmarshal_elems_cases u m bb)
    as [[-> _]|(b0 & tl & ty & -> & _ & _ &
                [(_ & _ & ->)|[(_ & _ & ->)|[(_ & c & p & r & -> & ->)|
                 (_ & pat & c & p & r & -> & ->)]]])];
    done.
Qed.

Lemma sendCmdRes_lifecycle err c c' :
  sendCmdRes err c = Some c' →
  same_lifecycle c c' ∧ subs c' = subs c ∧ psubs c' = psubs c.
Proof.
  unfold sendCmdRes. destruct (cmdResCh c) as [buf|] eqn:E.
  - case_decide; [|done]. intros [= <-].
    unfold same_lifecycle. simpl. rewrite E. done.
  - intros [= <-]. split; [apply same_lifecycle_refl|done].
Qed.

Lemma sendCmdRes_send_lifecycle err c :
  same_lifecycle c (sendCmdRes_send err c).2 ∧
  subs (sendCmdRes_send err c).2 = subs c ∧
  psubs (sendCmdRes_send err c).2 = psubs c.
Proof.
  unfold sendCmdRes_send. destruct (cmdResCh c) as [buf|] eqn:E.
  - case_decide; simpl; [|split; [apply same_lifecycle_refl|done]].
    unfold same_lifecycle. simpl. rewrite E. done.
  - split; [apply same_lifecycle_refl|done].
Qed.

(** The late send panics on a closed connection and on no other. *)
Lemma sendCmdRes_send_panics err c :
  conn_ok c → (sendCmdRes_send err c).1 = SpinPanics ↔ closed c.
Proof.
  unfold sendCmdRes_send.
  intros [(Hd & _ & _ & [buf Hb] & _)|(Hc & _)].
  - rewrite Hb. unfold closed. rewrite Hd.
    case_decide; simpl; split; try done; by intros [[=] _].
  - pose proof Hc as (_ & _ & _ & ->). done.
Qed.

Lemma spin_step_inv u close_res d c :
  conn_inv c →
  conn_inv (spin_step u close_res d c).1.2 ∧
  (spin_step u close_res d c).1.1 ≠ SpinPanics.
Proof.
  intros Hinv. destruct d as [|e|rm]; unfold spin_step.
  - done.
  - split; [exact (proj1 (closeInner_inv close_res (Some e) c Hinv))|done].
  - destruct (UnmarshalRESP_is_Some u (mkPubSubMessage "" "" "" []) rm)
      as [[[[e|] m] rest] ->]; [|done].
    destruct (sendCmdRes None c) as [c'|] eqn:E; cbn [fst snd]; [|done].
    split; [|done].
    destruct (sendCmdRes_lifecycle _ _ _ E) as (Hl & Hs & Hp).
    pose proof Hinv as (_ & _ & ? & ?).
    apply (conn_inv_transfer c); rewrite ?Hs, ?Hp; done.
Qed.

Lemma api_exec_inv a c :
  conn_inv c → conn_inv (api_exec a c).2 ∧ (api_exec a c).1 ≠ Panics.
Proof.
  intros Hinv. destruct a; unfold api_exec.
  - by apply Subscribe_inv.
  - by apply Unsubscribe_inv.
  - by apply PSubscribe_inv.
  - by apply PUnsubscribe_inv.
  - unfold Ping.
    destruct (do_lifecycle env 1 "PING" [] c) as [Hl Hp].
    destruct (do_frame env 1 "PING" [] c) as (_ & Hs & Hps & _).
    split; [|done]. pose proof Hinv as (_ & _ & ? & ?).
    apply (conn_inv_transfer c); rewrite ?Hs, ?Hps; done.
  - split; [|done]. exact (proj1 (closeInner_inv close_res None c Hinv)).
Qed.

Lemma conn_reachable_inv u c sending : conn_reachable u c sending → conn_inv c.
Proof.
  induction 1 as [|a c sending _ IH|close_res d c _ IH|c _ IH _|c _ IH _].
  - split; [left; by repeat split|]. split; [done|]. split; intros s m; done.
  - by apply api_exec_inv.
  - by apply spin_step_inv.
  - done.
  - destruct (sendCmdRes_send_lifecycle None c) as (Hl & Hs & Hp).
    pose proof IH as (_ & _ & ? & ?).
    apply (conn_inv_transfer c); rewrite ?Hs, ?Hp; done.
Qed.

(** X16: a connection made by [PubSub], without observer, under calls of its
    interface in any order, whatever the environment answers, and a reader
    whose [sendCmdRes] fetches the channel and sends on it in two steps,
    with calls in between. In every state it comes to the connection is open
    with [conn.Close] not called, or closed with [conn.Close] called once,
    and no key of a registry has an empty set; no call of the interface
    panics, and no turn of [spin] made in one piece does. The send of
    [sendCmdRes] made after the fetch panics exactly when the connection is
    closed by then; and this comes about: from every open state with the
    reader at rest, the reader fetches the channel, a [Close] runs, and the
    send that is left panics. *)
Theorem conn_reachable_invariant u c sending :
  conn_reachable u c sending →
  conn_ok c ∧ closeErrCh c = None ∧
  sets_nonempty (subs c) ∧ sets_nonempty (psubs c) ∧
  (∀ a, (api_exec a c).1 ≠ Panics) ∧
  (∀ close_res d, (spin_step u close_res d c).1.1 ≠ SpinPanics) ∧
  (∀ err, (sendCmdRes_send err c).1 = SpinPanics ↔ closed c) ∧
  (sending = false → close_done c = false →
   ∀ close_res err,
     conn_reachable u (api_exec (ApiClose close_res) c).2 true ∧
     (sendCmdRes_send err (api_exec (ApiClose close_res) c).2).1
     = SpinPanics).
Proof.
  intros Hr. pose proof (conn_reachable_inv u c sending Hr) as Hinv.
  pose proof Hinv as (Hok & Ho & Hs & Hp).
  do 4 (split; [done|]).
  split; [intros a; by apply api_exec_inv|].
  split; [intros close_res d; by apply spin_step_inv|].
  split; [intros err; by apply sendCmdRes_send_panics|].
  intros -> Hd close_res err.
  assert (Hch : is_Some (cmdResCh c)).
  { destruct Hok as [(_ & _ & _ & ? & _)|((? & _) & _)]; [done|congruence]. }
  pose proof (conn_reachable_api u (ApiClose close_res) c true
                (conn_reachable_fetch u c Hr Hch)) as Hr'.
  split; [exact Hr'|].
  apply sendCmdRes_send_panics.
  - by destruct (conn_reachable_inv u _ _ Hr').
  - unfold api_exec, Close. simpl.
    by apply (closeInner_inv close_res None c Hinv).
Qed.

Lemma conn_reachable_invariant_witness :
  let c := (api_exec (ApiSubscribe (mkWireEnv None [Got None]) 1 ["a"])
              (newPubSub None)).2 in
  let c' := (api_exec (ApiClose None) c).2 in
  conn_reachable id c false ∧ close_done c = false ∧
  (api_exec (ApiSubscribe (mkWireEnv None [Got None]) 2 ["a"; "b"]) c).1
  ≠ Panics ∧
  conn_reachable id c' true ∧
  (sendCmdRes_send None c').1 = SpinPanics.
Proof.
  intros c c'.
  assert (Hr : conn_reachable id c false).
  { apply conn_reachable_api, conn_reachable_new. }
  destruct (conn_reachable_invariant id c false Hr)
    as (_ & _ & _ & _ & Hnp & _ & _ & Hrace).
  split; [exact Hr|]. split; [reflexivity|]. split; [apply Hnp|].
  exact (Hrace eq_refl eq_refl None None).
Defined.

End ConnInvariant.

(** * The reader loop *)

Section SpinFacts.
Variable unicode_ToLower : list byte → list byte.
Implicit Types (c : pubSubConn) (m : PubSubMessage) (d : decoded).

(** X18: from writer to sinks. The frame [MarshalRESP] writes for a message
    of Type "message" or "pmessage", met by [spin], is sent to exactly the
    sinks held under the channel of a "message", in the literal registry, or
    under the pattern of a "pmessage", in the pattern registry; what they
    get is the message itself, but for the pattern of a "message", which
    does not travel. The connection is left as it was. *)
Theorem spin_delivers_marshalled close_res m c :
  Type_ m = "message" ∨ Type_ m = "pmessage" →
  ∃ w, MarshalRESP m ([] : list RespItem) = (None, w) ∧
       (spin_step unicode_ToLower close_res (DecodeFrame w) c).1
       = (SpinNext, c) ∧
       ∀ ch m',
         (ch, m') ∈ (spin_step unicode_ToLower close_res (DecodeFrame w) c).2 ↔
         (if decide (Type_ m = "pmessage")
          then m' = m ∧ registered (psubs c) (Pattern m) ch
          else m' = set_Pattern "" m ∧ registered (subs c) (Channel m) ch).
Proof.
  intros Ht.
  destruct (Marshal_Unmarshal_frame unicode_ToLower m [] Ht) as (f & Hw & Hr).
  exists f. split; [exact Hw|].
  specialize (Hr (mkPubSubMessage "" "" "" []) []).
  rewrite app_nil_r in Hr. unfold spin_step. rewrite Hr. cbn [fst snd].
  split; [done|]. intros ch m'. unfold publish. cbn [Type_ Pattern Channel].
  destruct Ht as [Ht|Ht]; rewrite Ht; simpl.
  - rewrite elem_of_sends, registered_default.
    destruct m as [t p ch0 b]. simpl in *. subst t. done.
  - rewrite elem_of_sends, registered_default.
    destruct m as [t p ch0 b]. simpl in *. subst t. done.
Qed.

(** X19: a frame that is no push message is taken for a reply. On a
    connection whose [cmdResCh] is open and empty, [spin] keeps it there;
    the next command that expects one reply and gets through [conn.Encode]
    then returns nil on it, whatever arrives after, and leaves [cmdResCh]
    empty. A second such frame before that command makes [spin] wait. *)
Theorem stray_reply_answers_next_command close_res rm c e m' rest :
  cmdResCh c = Some [] →
  UnmarshalRESP unicode_ToLower (mkPubSubMessage "" "" "" []) rm
  = Some (Some e, m', rest) →
  (spin_step unicode_ToLower close_res (DecodeFrame rm) c)
  = (SpinNext, set_cmdResCh (Some [None]) c, []) ∧
  (∀ env cmd args, encode_err env = None →
     do env 1 cmd args (set_cmdResCh (Some [None]) c)
     = (Returns None, set_conn (Encode (mkCmd cmd args) (conn c)) c)) ∧
  (spin_step unicode_ToLower close_res (DecodeFrame rm)
     (set_cmdResCh (Some [None]) c)).1.1 = SpinBlocks.
Proof.
  intros Hc Hu. unfold spin_step. rewrite Hu.
  unfold sendCmdRes. simpl. rewrite Hc. simpl.
  split; [done|]. split; [|done].
  intros env cmd args Henc. unfold do. rewrite Henc. simpl.
  unfold recvCmdRes. simpl.
  destruct c as [cn s p chn d ce cec]. simpl in *. by subst chn.
Qed.

End SpinFacts.

Lemma spin_delivers_marshalled_witness :
  let c := set_subs (Some {["a" := {[1 := true]}]}) (newPubSub None) in
  let m := mkPubSubMessage "message" "stale" "a" [] in
  ∃ w, MarshalRESP m ([] : list RespItem) = (None, w) ∧
       (1, set_Pattern "" m) ∈ (spin_step id None (DecodeFrame w) c).2.
Proof.
  intros c m.
  destruct (spin_delivers_marshalled id None m c (or_introl eq_refl))
    as (w & Hw & _ & Hin).
  exists w. split; [exact Hw|]. apply Hin. simpl. split; [done|].
  exists {[1 := true]}. split; [done|]. by exists true.
Defined.

Lemma stray_reply_answers_next_command_witness :
  let c := newPubSub None in
  do (mkWireEnv None []) 1 "PING" [] (set_cmdResCh (Some [None]) c)
  = (Returns None, set_conn (Encode (mkCmd "PING" []) (conn c)) c).
Proof.
  intros c.
  exact (proj1 (proj2
           (stray_reply_answers_next_command id None
              [ArrayHeader 1; BulkString "PONG"] c _ _ _ eq_refl eq_refl))
           (mkWireEnv None []) "PING" [] eq_refl).
Defined.

(** * Teardown *)

Section Teardown.
Implicit Types (c : pubSubConn) (m : PubSubMessage).

(** X20: teardown happens once, whoever starts it. On a connection without
    observer, as [PubSub] makes them, the first [closeInner], with or without
    a cause, once it has [csL], makes no send that waits: it calls
    [conn.Close] once, returns what it answered, hands no command to the
    connection and leaves the connection closed; every later
    [closeInner], whatever its cause and whatever [conn.Close] would answer,
    returns that same value and changes nothing; and [publish] then sends
    to no sink. *)
Theorem closeInner_once close_res cause c :
  close_done c = false → closeErrCh c = None →
  (closeInner close_res cause c).1 = close_res ∧
  closed (closeInner close_res cause c).2 ∧
  closeErrCh (closeInner close_res cause c).2 = None ∧
  encoded (conn (closeInner close_res cause c).2) = encoded (conn c) ∧
  close_calls (conn (closeInner close_res cause c).2)
  = S (close_calls (conn c)) ∧
  (∀ close_res' cause',
     closeInner close_res' cause' (closeInner close_res cause c).2
     = (close_res, (closeInner close_res cause c).2)) ∧
  (∀ m, publish (closeInner close_res cause c).2 m = []).
Proof.
  intros Hd Ho. destruct c as [[enc n] s p chn d ce cec]. simpl in Hd, Ho.
  subst d cec.
  unfold closeInner, closed, publish, sendCmdResNb. simpl.
  destruct cause as [e|]; destruct chn as [buf|]; simpl;
    repeat case_decide; simpl; repeat split; try done;
    intros m; by destruct (decide (Type_ m = "pmessage")).
Qed.

Lemma closeInner_once_witness :
  let c := set_subs (Some {["a" := {[1 := true]}]}) (newPubSub None) in
  let c1 := (closeInner None (Some (foreign_error "EOF")) c).2 in
  closeInner (Some (foreign_error "late")) None c1 = (None, c1) ∧
  publish c1 (mkPubSubMessage "message" "" "a" []) = [].
Proof.
  intros c c1.
  destruct (closeInner_once None (Some (foreign_error "EOF")) c eq_refl eq_refl)
    as (_ & _ & _ & _ & _ & Hagain & Hpub).
  split; [exact (Hagain _ _)|exact (Hpub _)].
Defined.

End Teardown.
